(** * LogoLoop: the marquee's layout sizer, motion controller and item renderer

    A shallow embedding of [src/components/LogoLoop.tsx].

    Numbers.  The component computes on JavaScript numbers.  They are
    embedded as real numbers ([R]): every arithmetic operation is exact, and
    the two operations that leave the real line even in exact arithmetic,
    [%] and [/] with a zero divisor, are partial ([None] stands for the
    NaN or infinity JavaScript would produce).  Rounding, overflow and the
    signed zero of IEEE doubles are outside this embedding.

    State.  React refs ([useRef]) and the parts of the host the hooks touch
    (the track's style, the host's queue of frame callbacks, image and resize
    listeners) are fields of explicit state records that every hook function
    takes and returns. *)

From Stdlib Require Import Reals Lra Lia ZArith List Bool String Arith.
Import ListNotations.

Local Open Scope R_scope.

(** ** JavaScript number primitives *)

Module JsNum.

(** Truncation toward zero, the integer quotient behind [%]. *)
Definition trunc (x : R) : Z :=
  if Rle_dec 0 x then Zfloor x else Zceil x.

(** [x % w]: the remainder has the sign of the dividend; [x % 0] is NaN. *)
Definition jsMod (x w : R) : option R :=
  if Req_dec_T w 0 then None
  else Some (x - w * IZR (trunc (x / w))).

(** [x / y] for a divisor that is a variable: not a finite number at 0. *)
Definition jsDiv (x y : R) : option R :=
  if Req_dec_T y 0 then None else Some (x / y).

(** [Math.ceil], [Math.max], [Math.abs]. *)
Definition ceil (x : R) : Z := Zceil x.
Definition max (x y : R) : R := Rmax x y.
Definition abs (x : R) : R := Rabs x.

End JsNum.

(** ** ANIMATION_CONFIG *)

Module ANIMATION_CONFIG.
Definition SMOOTH_TAU : R := 0.25.
Definition MIN_COPIES : Z := 2.
Definition COPY_HEADROOM : Z := 2.
End ANIMATION_CONFIG.

(** ** useAnimationLoop *)

Module AnimationLoop.

(** The values the effect closes over: its dependency list without the
    stable [trackRef]. *)
Record Deps : Type := mkDeps {
  targetVelocity : R;
  seqWidth : R;
  isHovered : bool;
  hoverSpeed : option R          (* number | undefined *)
}.

(** [track.style.transform]: never written, or [translate3d(x px, 0, 0)]. *)
Inductive Transform : Type :=
| Unset
| Translate3d (x : R).

(** The translation a transform applies to the track. *)
Definition translation (t : Transform) : R :=
  match t with Unset => 0 | Translate3d x => x end.

(** The four refs of the hook, the track's style, and the host's queue of
    frame callbacks: each entry is a handle with the dependency values its
    [animate] closure captured.  [framesRun] counts the calls of [animate]. *)
Record Loop : Type := mkLoop {
  rafRef : option nat;
  lastTimestampRef : option R;
  offsetRef : R;
  velocityRef : R;
  transform : Transform;
  pending : list (nat * Deps);
  nextHandle : nat;
  framesRun : nat
}.

(** State at mount: [useRef(null)], [useRef(null)], [useRef(0)], [useRef(0)]. *)
Definition initial : Loop :=
  mkLoop None None 0 0 Unset [] 0%nat 0%nat.

(** What the effect returns. *)
Inductive Cleanup : Type :=
| NoCleanup          (* [if (!track) return;] *)
| ReducedCleanup     (* lines 123-125 *)
| AnimatingCleanup.  (* lines 154-160 *)

Definition requestAnimationFrame (d : Deps) (s : Loop) : nat * Loop :=
  (nextHandle s,
   mkLoop (rafRef s) (lastTimestampRef s) (offsetRef s) (velocityRef s)
          (transform s) (pending s ++ [(nextHandle s, d)])
          (S (nextHandle s)) (framesRun s)).

Definition cancelAnimationFrame (h : nat) (s : Loop) : Loop :=
  mkLoop (rafRef s) (lastTimestampRef s) (offsetRef s) (velocityRef s)
         (transform s)
         (filter (fun p => negb (Nat.eqb (fst p) h)) (pending s))
         (nextHandle s) (framesRun s).

(** [((x % w) + w) % w] *)
Definition wrap (x w : R) : option R :=
  match JsNum.jsMod x w with
  | Some r => JsNum.jsMod (r + w) w
  | None => None
  end.

(** [deltaTime] of a frame (lines 129-133). *)
Definition deltaTime (last : option R) (timestamp : R) : R :=
  let l := match last with None => timestamp | Some l => l end in
  JsNum.max 0 (timestamp - l) / 1000.

(** [target] of a frame (line 136). *)
Definition target (d : Deps) : R :=
  match isHovered d, hoverSpeed d with
  | true, Some h => h
  | _, _ => targetVelocity d
  end.

(** Lines 138-139. *)
Definition easingFactor (dt : R) : R :=
  1 - exp (- dt / ANIMATION_CONFIG.SMOOTH_TAU).

Definition smooth (d : Deps) (dt v : R) : R :=
  v + (target d - v) * easingFactor dt.

(** The frame callback (lines 128-150), run with the values [d] it closed
    over.  [None]: a number that is not finite was produced. *)
Definition animate (d : Deps) (timestamp : R) (s : Loop) : option Loop :=
  let dt := deltaTime (lastTimestampRef s) timestamp in
  let v := smooth d dt (velocityRef s) in
  let moved :=
    if Rlt_dec 0 (seqWidth d) then
      match wrap (offsetRef s + v * dt) (seqWidth d) with
      | Some nextOffset => Some (nextOffset, Translate3d (- nextOffset))
      | None => None
      end
    else Some (offsetRef s, transform s) in
  match moved with
  | Some (o, tr) =>
      let s1 := mkLoop (rafRef s) (Some timestamp) o v tr (pending s)
                       (nextHandle s) (S (framesRun s)) in
      let (h, s2) := requestAnimationFrame d s1 in
      Some (mkLoop (Some h) (lastTimestampRef s2) (offsetRef s2)
                   (velocityRef s2) (transform s2) (pending s2)
                   (nextHandle s2) (framesRun s2))
  | None => None
  end.

(** The effect body (lines 108-152). [track]: [trackRef.current] is an
    element; [prefersReduced]: the media query matches now. *)
Definition effect (track prefersReduced : bool) (d : Deps) (s : Loop)
  : option (Loop * Cleanup) :=
  if negb track then Some (s, NoCleanup)
  else
    let normalized :=
      if Rlt_dec 0 (seqWidth d) then
        match wrap (offsetRef s) (seqWidth d) with
        | Some o => Some (o, Translate3d (- o))
        | None => None
        end
      else Some (offsetRef s, transform s) in
    match normalized with
    | None => None
    | Some (o, tr) =>
        if prefersReduced then
          Some (mkLoop (rafRef s) (lastTimestampRef s) o (velocityRef s)
                       (Translate3d 0) (pending s) (nextHandle s)
                       (framesRun s),
                ReducedCleanup)
        else
          let s1 := mkLoop (rafRef s) (lastTimestampRef s) o (velocityRef s)
                           tr (pending s) (nextHandle s) (framesRun s) in
          let (h, s2) := requestAnimationFrame d s1 in
          Some (mkLoop (Some h) (lastTimestampRef s2) (offsetRef s2)
                       (velocityRef s2) (transform s2) (pending s2)
                       (nextHandle s2) (framesRun s2),
                AnimatingCleanup)
    end.

(** The function the effect returned, run on unmount or before the effect
    runs again. *)
Definition cleanup (c : Cleanup) (s : Loop) : Loop :=
  match c with
  | NoCleanup => s
  | ReducedCleanup =>
      mkLoop (rafRef s) None (offsetRef s) (velocityRef s) (transform s)
             (pending s) (nextHandle s) (framesRun s)
  | AnimatingCleanup =>
      let s1 := match rafRef s with
                | Some h =>
                    let s' := cancelAnimationFrame h s in
                    mkLoop None (lastTimestampRef s') (offsetRef s')
                           (velocityRef s') (transform s') (pending s')
                           (nextHandle s') (framesRun s')
                | None => s
                end in
      mkLoop (rafRef s1) None (offsetRef s1) (velocityRef s1) (transform s1)
             (pending s1) (nextHandle s1) (framesRun s1)
  end.

(** The host renders a frame at [timestamp]: it takes the oldest scheduled
    callback off its queue and calls it; with nothing scheduled it calls
    nothing. *)
Definition frame (timestamp : R) (s : Loop) : option Loop :=
  match pending s with
  | [] => Some s
  | (_, d) :: rest =>
      animate d timestamp
              (mkLoop (rafRef s) (lastTimestampRef s) (offsetRef s)
                      (velocityRef s) (transform s) rest (nextHandle s)
                      (framesRun s))
  end.

(** Frames at the timestamps [ts], in this order. *)
Fixpoint frames (ts : list R) (s : Loop) : option Loop :=
  match ts with
  | [] => Some s
  | t :: ts' =>
      match frame t s with
      | Some s' => frames ts' s'
      | None => None
      end
  end.

End AnimationLoop.

(** ** The LogoLoop component: derived values, handlers, wiring of the hook *)

Module LogoLoop.

Inductive Direction : Type := left | right.

(** The props the layout sizer and the motion controller read, after the
    defaults of the parameter list are applied. *)
Record Props : Type := mkProps {
  speed : R;
  direction : Direction;
  hoverSpeed : option R
}.

(** [speed = 120, direction = 'left', hoverSpeed] of the parameter list. *)
Definition withDefaults (speed : option R) (direction : option Direction)
           (hoverSpeed : option R) : Props :=
  mkProps (match speed with Some s => s | None => 120 end)
          (match direction with Some d => d | None => left end)
          hoverSpeed.

(** The three [useState] cells. *)
Record State : Type := mkState {
  seqWidth : R;
  copyCount : Z;
  isHovered : bool
}.

Definition initialState : State :=
  mkState 0 ANIMATION_CONFIG.MIN_COPIES false.

(** Lines 216-219. *)
Definition effectiveHoverSpeed (p : Props) : R :=
  match hoverSpeed p with
  | Some h => h
  | None => 0
  end.

(** Lines 221-226. *)
Definition targetVelocity (p : Props) : R :=
  let magnitude := JsNum.abs (speed p) in
  let directionMultiplier :=
    match direction p with left => 1 | right => -1 end in
  let speedMultiplier := if Rlt_dec (speed p) 0 then -1 else 1 in
  magnitude * directionMultiplier * speedMultiplier.

(** [containerRef.current?.clientWidth ?? 0]: a whole number of pixels. *)
Definition pixels (clientWidth : option N) : R :=
  match clientWidth with Some n => IZR (Z.of_N n) | None => 0 end.

(** Lines 228-238.  [clientWidth]: [containerRef.current?.clientWidth];
    [rectWidth]: [seqRef.current?.getBoundingClientRect().width]. *)
Definition updateDimensions (clientWidth : option N) (rectWidth : option R)
           (st : State) : option State :=
  let containerWidth := pixels clientWidth in
  let sequenceWidth :=
    match rectWidth with Some w => w | None => 0 end in
  if Rlt_dec 0 sequenceWidth then
    match JsNum.jsDiv containerWidth sequenceWidth with
    | Some q =>
        let copiesNeeded :=
          (JsNum.ceil q + ANIMATION_CONFIG.COPY_HEADROOM)%Z in
        Some (mkState (IZR (JsNum.ceil sequenceWidth))
                      (Z.max ANIMATION_CONFIG.MIN_COPIES copiesNeeded)
                      (isHovered st))
    | None => None
    end
  else Some st.

(** Lines 269-275. *)
Definition handleMouseEnter (p : Props) (st : State) : State :=
  match hoverSpeed p with
  | Some _ => mkState (seqWidth st) (copyCount st) true
  | None => st
  end.

Definition handleMouseLeave (p : Props) (st : State) : State :=
  match hoverSpeed p with
  | Some _ => mkState (seqWidth st) (copyCount st) false
  | None => st
  end.

(** Line 244: the arguments the component passes to the hook. *)
Definition loopDeps (p : Props) (st : State) : AnimationLoop.Deps :=
  AnimationLoop.mkDeps (targetVelocity p) (seqWidth st) (isHovered st)
                       (Some (effectiveHoverSpeed p)).

(** React compares the dependency lists of two renders value by value. *)
Definition deps_eq_dec (a b : AnimationLoop.Deps) : {a = b} + {a <> b}.
Proof.
  decide equality.
  - decide equality. apply Req_dec_T.
  - apply Bool.bool_dec.
  - apply Req_dec_T.
  - apply Req_dec_T.
Defined.

(** A mounted component: props, state, the hook's refs and host effects,
    and the dependency values and cleanup of the effect that ran last. *)
Record Mounted : Type := mkMounted {
  props : Props;
  state : State;
  loop : AnimationLoop.Loop;
  deps : AnimationLoop.Deps;
  onCleanup : AnimationLoop.Cleanup
}.

(** What can happen to a mounted component. *)
Inductive Event : Type :=
| MouseEnter
| MouseLeave
| SetProps (p : Props)                       (* the parent renders new props *)
| Measure (clientWidth : option N) (rectWidth : option R)
                                             (* a call of updateDimensions *)
| Frame (timestamp : R).                     (* the host renders a frame *)

(** A render with props [p] and state [st]: the effect runs again, after the
    cleanup of the previous run, exactly when a dependency changed.  The
    track [div] is always rendered, so [trackRef.current] is set. *)
Definition rerender (prefersReduced : bool) (p : Props) (st : State)
           (m : Mounted) : option Mounted :=
  let d := loopDeps p st in
  if deps_eq_dec (deps m) d then
    Some (mkMounted p st (loop m) (deps m) (onCleanup m))
  else
    match AnimationLoop.effect true prefersReduced d
            (AnimationLoop.cleanup (onCleanup m) (loop m)) with
    | Some (l, c) => Some (mkMounted p st l d c)
    | None => None
    end.

Definition mount (prefersReduced : bool) (p : Props) : option Mounted :=
  let d := loopDeps p initialState in
  match AnimationLoop.effect true prefersReduced d AnimationLoop.initial with
  | Some (l, c) => Some (mkMounted p initialState l d c)
  | None => None
  end.

(** [prefersReduced] is what the media query answers when the event is
    handled; only a run of the effect reads it. *)
Definition step (prefersReduced : bool) (e : Event) (m : Mounted)
  : option Mounted :=
  match e with
  | MouseEnter =>
      rerender prefersReduced (props m) (handleMouseEnter (props m) (state m)) m
  | MouseLeave =>
      rerender prefersReduced (props m) (handleMouseLeave (props m) (state m)) m
  | SetProps p => rerender prefersReduced p (state m) m
  | Measure cw rw =>
      match updateDimensions cw rw (state m) with
      | Some st => rerender prefersReduced (props m) st m
      | None => None
      end
  | Frame t =>
      match AnimationLoop.frame t (loop m) with
      | Some l => Some (mkMounted (props m) (state m) l (deps m) (onCleanup m))
      | None => None
      end
  end.

Fixpoint run (es : list (bool * Event)) (m : Mounted) : option Mounted :=
  match es with
  | [] => Some m
  | (pref, e) :: es' =>
      match step pref e m with
      | Some m' => run es' m'
      | None => None
      end
  end.

Definition unmount (m : Mounted) : AnimationLoop.Loop :=
  AnimationLoop.cleanup (onCleanup m) (loop m).

(** States a mount can be in. *)
Inductive reachable : Mounted -> Prop :=
| reach_mount pref p m : mount pref p = Some m -> reachable m
| reach_step pref e m m' :
    reachable m -> step pref e m = Some m' -> reachable m'.

End LogoLoop.

(** ** useImageLoader *)

Module ImageLoader.

(** The [load] and [error] listeners of one image. *)
Record Listeners : Type := mkListeners {
  onLoadEvent : bool;
  onErrorEvent : bool
}.

Definition noListeners : Listeners := mkListeners false false.

(** One run of the effect: the counter of its closure, the listeners it
    holds on each image of the sequence, and how often it called [onLoad]. *)
Record Loader : Type := mkLoader {
  remainingImages : Z;
  listeners : list Listeners;
  onLoadCalls : nat
}.

(** Lines 68-73. *)
Definition handleImageLoad (s : Loader) : Loader :=
  let remaining := (remainingImages s - 1)%Z in
  if (remaining =? 0)%Z then
    mkLoader remaining (listeners s) (S (onLoadCalls s))
  else mkLoader remaining (listeners s) (onLoadCalls s).

(** The body of the [forEach] of lines 75-83 for one image. *)
Definition visit (s : Loader) (complete : bool) : Loader :=
  if complete then
    let s' := handleImageLoad s in
    mkLoader (remainingImages s') (listeners s' ++ [noListeners])
             (onLoadCalls s')
  else
    mkLoader (remainingImages s) (listeners s ++ [mkListeners true true])
             (onLoadCalls s).

(** The effect body (lines 54-83).  [container]: the [complete] flag of each
    [img] under [seqRef.current], or [None] when the ref is not set. *)
Definition effect (container : option (list bool)) : Loader :=
  match container with
  | None => mkLoader 0 [] 1
  | Some images =>
      if Nat.eqb (List.length images) 0 then mkLoader 0 [] 1
      else fold_left visit images
                     (mkLoader (Z.of_nat (List.length images)) [] 0%nat)
  end.

(** What an image of the sequence can do after the effect ran. *)
Inductive ImgEvent : Type :=
| ImgLoad (i : nat)
| ImgError (i : nat).

Definition image (e : ImgEvent) : nat :=
  match e with ImgLoad i => i | ImgError i => i end.

Fixpoint update (i : nat) (f : Listeners -> Listeners) (l : list Listeners)
  : list Listeners :=
  match l, i with
  | [], _ => []
  | x :: l', O => f x :: l'
  | x :: l', S i' => x :: update i' f l'
  end.

(** The host dispatches an event: a listener registered with [once: true]
    is removed, then called. *)
Definition dispatch (e : ImgEvent) (s : Loader) : Loader :=
  match e with
  | ImgLoad i =>
      if onLoadEvent (nth i (listeners s) noListeners) then
        handleImageLoad
          (mkLoader (remainingImages s)
                    (update i (fun l => mkListeners false (onErrorEvent l))
                            (listeners s))
                    (onLoadCalls s))
      else s
  | ImgError i =>
      if onErrorEvent (nth i (listeners s) noListeners) then
        handleImageLoad
          (mkLoader (remainingImages s)
                    (update i (fun l => mkListeners (onLoadEvent l) false)
                            (listeners s))
                    (onLoadCalls s))
      else s
  end.

Definition events (es : list ImgEvent) (s : Loader) : Loader :=
  fold_left (fun s e => dispatch e s) es s.

(** Lines 85-91. *)
Definition cleanup (s : Loader) : Loader :=
  mkLoader (remainingImages s) (map (fun _ => noListeners) (listeners s))
           (onLoadCalls s).

(** Image [i] has settled: it was complete when the effect ran, or it has
    loaded or failed since. *)
Definition settled (images : list bool) (es : list ImgEvent) (i : nat) : bool :=
  nth i images false || existsb (fun e => Nat.eqb (image e) i) es.

Definition allSettled (images : list bool) (es : list ImgEvent) : bool :=
  forallb (settled images es) (seq 0 (List.length images)).

End ImageLoader.

(** ** useResizeObserver *)

Module ResizeObserver.

(** What the host offers. *)
Inductive Env : Type :=
| NoWindow             (* typeof window === 'undefined' *)
| WindowOnly           (* no window.ResizeObserver *)
| WithResizeObserver.

(** Live observers (an id and the element observed), the [resize]
    listeners on [window], and the calls of [callback] by the hook. *)
Record Host : Type := mkHost {
  observers : list (nat * nat);
  windowListeners : list nat;
  nextId : nat;
  callbackCalls : nat
}.

Definition emptyHost : Host := mkHost [] [] 0%nat 0%nat.

Inductive Cleanup : Type :=
| NoCleanup
| RemoveListener (id : nat)
| Disconnect (ids : list nat).

(** Lines 31-38 for one ref. *)
Definition observe (acc : Host * list nat) (ref : option nat)
  : Host * list nat :=
  let (h, ids) := acc in
  match ref with
  | None => (h, ids)
  | Some el =>
      (mkHost (observers h ++ [(nextId h, el)]) (windowListeners h)
              (S (nextId h)) (callbackCalls h),
       ids ++ [nextId h])
  end.

(** The effect body (lines 19-44). *)
Definition effect (env : Env) (elements : list (option nat)) (h : Host)
  : Host * Cleanup :=
  match env with
  | NoWindow => (h, NoCleanup)
  | WindowOnly =>
      (mkHost (observers h) (windowListeners h ++ [nextId h])
              (S (nextId h)) (S (callbackCalls h)),
       RemoveListener (nextId h))
  | WithResizeObserver =>
      let (h', ids) := fold_left observe elements (h, []) in
      (mkHost (observers h') (windowListeners h') (nextId h')
              (S (callbackCalls h')),
       Disconnect ids)
  end.

Definition cleanup (c : Cleanup) (h : Host) : Host :=
  match c with
  | NoCleanup => h
  | RemoveListener id =>
      mkHost (observers h)
             (filter (fun l => negb (Nat.eqb l id)) (windowListeners h))
             (nextId h) (callbackCalls h)
  | Disconnect ids =>
      mkHost (filter (fun o => negb (existsb (Nat.eqb (fst o)) ids))
                     (observers h))
             (windowListeners h) (nextId h) (callbackCalls h)
  end.

End ResizeObserver.

(** ** renderLogoItemInternal *)

Module ItemRenderer.

Local Open Scope string_scope.

(** A [ReactNode] or [JSX.Element] the renderer passes through. *)
Definition ReactNode : Type := string.

Record LogoItem : Type := mkLogoItem {
  node : option ReactNode;
  src : option string;
  srcSet : option string;
  sizes : option string;
  width : option R;
  height : option R;
  alt : option string;
  title : option string;
  href : option string;
  ariaLabel : option string
}.

(** Truthiness of an optional string. *)
Definition truthy (s : option string) : bool :=
  match s with
  | Some s => negb (String.eqb s "")
  | None => false
  end.

(** [a ?? b] *)
Definition coalesce (a b : option string) : option string :=
  match a with Some _ => a | None => b end.

(** [a || d] *)
Definition orElse (a : option string) (d : string) : string :=
  match a with
  | Some s => if String.eqb s "" then d else s
  | None => d
  end.

(** The rendered content (class names left out). *)
Inductive Content : Type :=
| Span (ariaHidden : bool) (child : option ReactNode)
| Img (src srcSet sizes : option string) (width height : option R)
      (alt : string) (title : option string).

Inductive Inner : Type :=
| Plain (c : Content)
| Anchor (href ariaLabel target rel : string) (c : Content)
| Custom (e : ReactNode).

Record Li : Type := mkLi {
  key : nat;
  role : string;
  child : Inner
}.

(** Line 295: ['node' in item]. *)
Definition isNodeItem (item : LogoItem) : bool :=
  match node item with Some _ => true | None => false end.

(** Line 332. *)
Definition itemAriaLabel (item : LogoItem) : option string :=
  if isNodeItem item then coalesce (ariaLabel item) (title item)
  else coalesce (alt item) (title item).

(** Lines 277-366. *)
Definition renderLogoItemInternal
           (renderItem : option (LogoItem -> nat -> ReactNode))
           (item : LogoItem) (index : nat) : Li :=
  match renderItem with
  | Some f => mkLi index "listitem" (Custom (f item index))
  | None =>
      let content :=
        if isNodeItem item then
          Span (truthy (href item) && negb (truthy (ariaLabel item)))
               (node item)
        else
          Img (src item) (srcSet item) (sizes item) (width item)
              (height item)
              (match alt item with Some a => a | None => "" end)
              (title item) in
      let inner :=
        match href item with
        | Some h =>
            if String.eqb h "" then Plain content
            else Anchor h (orElse (itemAriaLabel item) "logo link")
                        "_blank" "noreferrer noopener" content
        | None => Plain content
        end in
      mkLi index "listitem" inner
  end.

End ItemRenderer.

(** ** Vocabulary of the statements *)

Module Timeline.

(** Timestamps that never go back, starting from [l]. *)
Fixpoint ascending (l : R) (ts : list R) : Prop :=
  match ts with
  | [] => True
  | t :: ts' => l <= t /\ ascending t ts'
  end.

(** Seconds between the timestamp [t0] and the last timestamp of [ts]. *)
Definition elapsed (t0 : R) (ts : list R) : R :=
  (last ts t0 - t0) / 1000.

End Timeline.

(** ** Counting the listeners of the image loader *)

Module Waiting.

Module IL := ImageLoader.

(** Both listeners of an image are still registered. *)
Definition both (l : IL.Listeners) : bool :=
  IL.onLoadEvent l && IL.onErrorEvent l.

(** The number of images the loader is still waiting for. *)
Definition waiting (ls : list IL.Listeners) : nat :=
  List.length (filter both ls).


(** [onLoad] was called once if the counter is down to 0 or below, and not
    at all otherwise. *)
Definition counted (s : IL.Loader) : Prop :=
  IL.onLoadCalls s = if (IL.remainingImages s <=? 0)%Z then 1%nat else 0%nat.

(** The listeners a run of the effect registers. *)
Definition registered (c : bool) : IL.Listeners :=
  if c then IL.noListeners else IL.mkListeners true true.

End Waiting.

(** ** Runs of frames of a mounted component *)

Module Script.

(** The host renders frames at the timestamps [ts] and nothing else
    happens (a frame does not read the media query). *)
Definition frameEvents (ts : list R) : list (bool * LogoLoop.Event) :=
  map (fun t => (false, LogoLoop.Frame t)) ts.

(** [Math.sign]. *)
Definition sign (x : R) : R :=
  if Rlt_dec x 0 then -1 else if Rlt_dec 0 x then 1 else 0.

End Script.

(** ** What holds of every state of a mounted component *)

Module Invariant.

Module AL := AnimationLoop.
Module LL := LogoLoop.
Module RO := ResizeObserver.

(** The host's queue holds the one callback the running effect scheduled,
    or nothing when the effect took the reduced-motion exit. *)
Definition scheduled (m : LL.Mounted) : Prop :=
  match LL.onCleanup m with
  | AL.AnimatingCleanup =>
      exists h, AL.rafRef (LL.loop m) = Some h /\
                AL.pending (LL.loop m) = [(h, LL.deps m)]
  | AL.ReducedCleanup =>
      AL.rafRef (LL.loop m) = None /\
      AL.lastTimestampRef (LL.loop m) = None /\
      AL.pending (LL.loop m) = []
  | AL.NoCleanup => False
  end.

(** The offset with respect to the stored sequence width. *)
Definition positioned (m : LL.Mounted) : Prop :=
  if Rlt_dec 0 (LL.seqWidth (LL.state m)) then
    0 <= AL.offsetRef (LL.loop m) < LL.seqWidth (LL.state m) /\
    (LL.onCleanup m = AL.AnimatingCleanup ->
     AL.transform (LL.loop m) = AL.Translate3d (- AL.offsetRef (LL.loop m)))
  else
    LL.seqWidth (LL.state m) = 0 /\
    AL.offsetRef (LL.loop m) = 0 /\
    AL.translation (AL.transform (LL.loop m)) = 0.

Record holds (m : LL.Mounted) : Prop := mkHolds {
  deps_current : LL.deps m = LL.loopDeps (LL.props m) (LL.state m);
  queue : scheduled m;
  copies : (2 <= LL.copyCount (LL.state m))%Z;
  position : positioned m
}.

(** The stored width and copy count come from one measurement. *)
Definition measured (st : LL.State) : Prop :=
  if Rlt_dec 0 (LL.seqWidth st) then
    exists (cw : option N) (w : R),
      0 < w /\
      LL.seqWidth st = IZR (Zceil w) /\
      LL.copyCount st = Z.max 2 (Zceil (LL.pixels cw / w) + 2)
  else LL.seqWidth st = 0 /\ LL.copyCount st = 2%Z.

(** The Reduced-Motion state: the transform is pinned, no callback is
    scheduled or has run, and the offset is 0. *)
Definition pinned (m : LL.Mounted) : Prop :=
  LL.onCleanup m = AL.ReducedCleanup /\
  AL.transform (LL.loop m) = AL.Translate3d 0 /\
  AL.pending (LL.loop m) = [] /\
  AL.rafRef (LL.loop m) = None /\
  AL.framesRun (LL.loop m) = 0%nat /\
  AL.offsetRef (LL.loop m) = 0.

(** The host signals the reduced-motion preference when this event is
    handled (a frame does not ask). *)
Definition signalled (pe : bool * LL.Event) : Prop :=
  match snd pe with
  | LL.Frame _ => True
  | _ => fst pe = true
  end.

(** The state a run of the effect leaves behind when it follows the
    cleanup of the previous run in state [m]: [o] is the offset and [tr]
    the transform it computed. *)
Definition restarted (pref : bool) (m m' : LL.Mounted) (o : R)
           (tr : AL.Transform) : Prop :=
  (if Rlt_dec 0 (LL.seqWidth (LL.state m'))
   then AL.wrap (AL.offsetRef (LL.loop m)) (LL.seqWidth (LL.state m'))
          = Some o /\
        tr = AL.Translate3d (- o) /\ 0 <= o < LL.seqWidth (LL.state m')
   else o = AL.offsetRef (LL.loop m) /\ tr = AL.transform (LL.loop m)) /\
  LL.deps m' = LL.loopDeps (LL.props m') (LL.state m') /\
  LL.onCleanup m' =
    (if pref then AL.ReducedCleanup else AL.AnimatingCleanup) /\
  LL.loop m' =
    (if pref
     then AL.mkLoop None None o (AL.velocityRef (LL.loop m))
                    (AL.Translate3d 0) []
                    (AL.nextHandle (LL.loop m)) (AL.framesRun (LL.loop m))
     else AL.mkLoop (Some (AL.nextHandle (LL.loop m))) None o
                    (AL.velocityRef (LL.loop m)) tr
                    [(AL.nextHandle (LL.loop m), LL.deps m')]
                    (S (AL.nextHandle (LL.loop m)))
                    (AL.framesRun (LL.loop m))).

(** One of the four values the effect depends on differs between the two
    states: the derived target velocity, the sequence width, the hover
    flag, or the effective hover speed. *)
Definition dependencyChanged (m m' : LL.Mounted) : Prop :=
  LL.targetVelocity (LL.props m') <> LL.targetVelocity (LL.props m) \/
  LL.seqWidth (LL.state m') <> LL.seqWidth (LL.state m) \/
  LL.isHovered (LL.state m') <> LL.isHovered (LL.state m) \/
  LL.effectiveHoverSpeed (LL.props m') <> LL.effectiveHoverSpeed (LL.props m).

(** Every id the resize host has handed out is below its next id. *)
Definition fresh (h : ResizeObserver.Host) : Prop :=
  (forall o, In o (ResizeObserver.observers h) ->
             (fst o < ResizeObserver.nextId h)%nat) /\
  (forall l, In l (ResizeObserver.windowListeners h) ->
             (l < ResizeObserver.nextId h)%nat).

End Invariant.

(** ** cx *)

Module ClassNames.

(** [cx(...parts)]: a part is a string, or one of [false], [null],
    [undefined] ([None]).  [parts.filter(Boolean)] keeps the non-empty
    strings; [join(' ')] puts one space between them. *)
Definition kept (parts : list (option string)) : list string :=
  flat_map (fun p => match p with
                     | Some s => if String.eqb s "" then [] else [s]
                     | None => []
                     end) parts.

Definition cx (parts : list (option string)) : string :=
  String.concat " " (kept parts).

(** Lines 255-267, with the class strings as they are in the source. *)
Definition rootClasses (scaleOnHover : bool) (className : option string)
  : string :=
  cx [Some "relative group overflow-x-hidden"%string;
      Some "[--logoloop-gap:32px]"%string;
      Some "[--logoloop-logoHeight:28px]"%string;
      Some "[--logoloop-fadeColorAuto:#ffffff]"%string;
      Some "dark:[--logoloop-fadeColorAuto:#0b0b0b]"%string;
      (if scaleOnHover
       then Some "py-[calc(var(--logoloop-logoHeight)*0.1)]"%string
       else None);
      className].

End ClassNames.

(** ** logoLists *)

Module Copies.

(** One rendered copy of the sequence: [key] is [copyIndex] (the source
    writes it as the string [copy-] followed by the index), [ariaHidden] the
    attribute, [measured] whether [seqRef] is attached to it. *)
Record Copy : Type := mkCopy {
  copyKey : nat;
  ariaHidden : bool;
  measured : bool;
  entries : list ItemRenderer.Li
}.

(** [logos.map((item, itemIndex) => renderLogoItemInternal(item, itemIndex))] *)
Definition renderEntries
           (renderItem : option (ItemRenderer.LogoItem -> nat
                                 -> ItemRenderer.ReactNode))
           (logos : list ItemRenderer.LogoItem) : list ItemRenderer.Li :=
  map (fun p => ItemRenderer.renderLogoItemInternal renderItem (snd p) (fst p))
      (combine (seq 0 (List.length logos)) logos).

(** Lines 370-378.  [Array.from({ length: copyCount }, ...)] has no element
    for a length that is not positive. *)
Definition logoLists (copyCount : Z)
           (renderItem : option (ItemRenderer.LogoItem -> nat
                                 -> ItemRenderer.ReactNode))
           (logos : list ItemRenderer.LogoItem) : list Copy :=
  map (fun copyIndex =>
         mkCopy copyIndex (Nat.ltb 0 copyIndex) (Nat.eqb copyIndex 0)
                (renderEntries renderItem logos))
      (seq 0 (Z.to_nat copyCount)).

End Copies.

(** ** The resize effect over the renders of a mount *)

Module ResizeRenders.

(** A render: what the host offers and the elements the two refs hold.
    The effect's dependency list holds arrays built by the render, so the
    effect runs again after every render, after the cleanup of the previous
    run. *)
Definition rerun (st : ResizeObserver.Host * ResizeObserver.Cleanup)
           (r : ResizeObserver.Env * list (option nat))
  : ResizeObserver.Host * ResizeObserver.Cleanup :=
  ResizeObserver.effect (fst r) (snd r)
                        (ResizeObserver.cleanup (snd st) (fst st)).

Definition renders (rs : list (ResizeObserver.Env * list (option nat)))
  : ResizeObserver.Host * ResizeObserver.Cleanup :=
  fold_left rerun rs (ResizeObserver.emptyHost, ResizeObserver.NoCleanup).

(** The elements that are there to observe. *)
Definition present (elements : list (option nat)) : list nat :=
  flat_map (fun r => match r with Some el => [el] | None => [] end) elements.

(** The renders in which the hook called [callback] itself. *)
Definition eager (rs : list (ResizeObserver.Env * list (option nat))) : nat :=
  List.length
    (filter (fun r => match fst r with
                      | ResizeObserver.NoWindow => false
                      | _ => true
                      end) rs).

End ResizeRenders.

(** ** Vocabulary of the further statements *)

Module Bounds.

(** Speed and hover speed of [p] are at most [M] in absolute value. *)
Definition within (M : R) (p : LogoLoop.Props) : Prop :=
  Rabs (LogoLoop.speed p) <= M /\ Rabs (LogoLoop.effectiveHoverSpeed p) <= M.

(** Every props the parent renders in [es] are [within M]. *)
Definition allWithin (M : R) (es : list (bool * LogoLoop.Event)) : Prop :=
  Forall (fun pe => match snd pe with
                    | LogoLoop.SetProps p => within M p
                    | _ => True
                    end) es.

(** The parent never configures a hover speed in [es]. *)
Definition neverHover (es : list (bool * LogoLoop.Event)) : Prop :=
  Forall (fun pe => match snd pe with
                    | LogoLoop.SetProps p => LogoLoop.hoverSpeed p = None
                    | _ => True
                    end) es.

(** The listeners still registered on the images. *)
Definition listening (ls : list ImageLoader.Listeners) : nat :=
  fold_right (fun l n => (Nat.b2n (ImageLoader.onLoadEvent l)
                          + Nat.b2n (ImageLoader.onErrorEvent l) + n)%nat)
             0%nat ls.

(** The images that were not complete when the effect ran. *)
Definition incomplete (images : list bool) : nat :=
  List.length (filter negb images).

End Bounds.

(** * Properties *)

(** ** Remainder and wrap-around *)

Section Remainder.

Import JsNum.

Lemma quotient_times (x w : R) : w <> 0 -> x = w * (x / w).
Proof. intros Hw. field. exact Hw. Qed.

(** For a positive divisor, the remainder of a non-negative dividend lies
    in [[0, w)]. *)
Lemma jsMod_nonneg (x w : R) :
  0 < w -> 0 <= x ->
  exists r, jsMod x w = Some r /\ 0 <= r < w.
Proof.
  intros Hw Hx. unfold jsMod.
  destruct (Req_dec_T w 0) as [E | _]; [lra |].
  eexists; split; [reflexivity |].
  assert (Hq : 0 <= x / w).
  { apply Rmult_le_pos; [exact Hx |].
    apply Rlt_le, Rinv_0_lt_compat, Hw. }
  unfold trunc. destruct (Rle_dec 0 (x / w)) as [_ | N]; [| lra].
  pose proof (Zfloor_bound (x / w)) as [Hlo Hhi].
  pose proof (quotient_times x w ltac:(lra)) as Hx'.
  set (q := x / w) in *. set (f := IZR (Zfloor q)) in *.
  clearbody f q. rewrite Hx'. split; nra.
Qed.

(** The remainder of a negative dividend lies in [(-w, 0]]. *)
Lemma jsMod_neg (x w : R) :
  0 < w -> x < 0 ->
  exists r, jsMod x w = Some r /\ - w < r <= 0.
Proof.
  intros Hw Hx. unfold jsMod.
  destruct (Req_dec_T w 0) as [E | _]; [lra |].
  eexists; split; [reflexivity |].
  assert (Hq : x / w < 0).
  { pose proof (Rinv_0_lt_compat w Hw). unfold Rdiv. nra. }
  unfold trunc. destruct (Rle_dec 0 (x / w)) as [P | _]; [lra |].
  pose proof (Zceil_bound (x / w)) as [Hlo Hhi].
  pose proof (quotient_times x w ltac:(lra)) as Hx'.
  set (q := x / w) in *. set (c := IZR (Zceil q)) in *.
  clearbody c q. rewrite Hx'. split; nra.
Qed.

(** A remainder below the divisor is the dividend itself. *)
Lemma jsMod_small (x w : R) :
  0 <= x < w -> jsMod x w = Some x.
Proof.
  intros [Hx Hw]. unfold jsMod.
  destruct (Req_dec_T w 0) as [E | _]; [lra |].
  assert (Hq : 0 <= x / w < 1).
  { split.
    - apply Rmult_le_pos; [exact Hx |].
      apply Rlt_le, Rinv_0_lt_compat. lra.
    - apply Rmult_lt_reg_r with w; [lra |].
      unfold Rdiv. rewrite Rmult_assoc, Rinv_l; lra. }
  unfold trunc. destruct (Rle_dec 0 (x / w)) as [_ | N]; [| lra].
  rewrite (Zfloor_eq 0 (x / w)) by (simpl; lra).
  f_equal. simpl. ring.
Qed.

(** The double remainder lands in [[0, w)] whatever the sign of [x]. *)
Lemma wrap_range (x w : R) :
  0 < w ->
  exists o, AnimationLoop.wrap x w = Some o /\ 0 <= o < w.
Proof.
  intros Hw. unfold AnimationLoop.wrap.
  destruct (Rle_dec 0 x) as [Hx | Hx].
  - destruct (jsMod_nonneg x w Hw Hx) as (r & -> & Hr).
    apply jsMod_nonneg; lra.
  - destruct (jsMod_neg x w Hw ltac:(lra)) as (r & -> & Hr).
    apply jsMod_nonneg; lra.
Qed.

(** An offset already in range is left where it is. *)
Lemma wrap_fixed (x w : R) :
  0 <= x < w -> AnimationLoop.wrap x w = Some x.
Proof.
  intros Hx. unfold AnimationLoop.wrap.
  rewrite (jsMod_small x w Hx).
  unfold jsMod. destruct (Req_dec_T w 0) as [E | _]; [lra |].
  assert (Hq : 1 <= (x + w) / w < 2).
  { replace ((x + w) / w) with (x / w + 1) by (field; lra).
    assert (0 <= x / w < 1); [| lra].
    split.
    - apply Rmult_le_pos; [lra |].
      apply Rlt_le, Rinv_0_lt_compat. lra.
    - apply Rmult_lt_reg_r with w; [lra |].
      unfold Rdiv. rewrite Rmult_assoc, Rinv_l; lra. }
  unfold trunc. destruct (Rle_dec 0 ((x + w) / w)) as [_ | N]; [| lra].
  rewrite (Zfloor_eq 1 ((x + w) / w)) by (simpl; lra).
  f_equal. simpl. ring.
Qed.

(** The reverse direction: an offset that fell below 0 by less than one
    width comes back in at the far end. *)
Lemma wrap_negative (x w : R) :
  - w < x < 0 -> AnimationLoop.wrap x w = Some (x + w).
Proof.
  intros [Hlo Hhi]. unfold AnimationLoop.wrap.
  assert (Hm : jsMod x w = Some x).
  { unfold jsMod. destruct (Req_dec_T w 0) as [E | _]; [lra |].
    assert (Hq : -1 < x / w < 0).
    { pose proof (Rinv_0_lt_compat w ltac:(lra)) as Hi.
      assert (Hx : x = w * (x / w)) by (field; lra).
      split; unfold Rdiv in *; nra. }
    unfold trunc. destruct (Rle_dec 0 (x / w)) as [P | _]; [lra |].
    rewrite (Zceil_eq 0 (x / w)) by (simpl; lra).
    f_equal. simpl. ring. }
  rewrite Hm. apply jsMod_small. lra.
Qed.

Example wrap_reverse : AnimationLoop.wrap (-30) 200 = Some 170.
Proof. rewrite wrap_negative by lra. f_equal. lra. Qed.

End Remainder.

(** ** The motion controller, frame by frame *)

Section Frames.

Import AnimationLoop.

(** A frame with a positive sequence width. *)
Lemma animate_moving (d : Deps) (t : R) (s : Loop) :
  0 < seqWidth d ->
  let dt := deltaTime (lastTimestampRef s) t in
  let v := smooth d dt (velocityRef s) in
  exists o,
    wrap (offsetRef s + v * dt) (seqWidth d) = Some o /\
    0 <= o < seqWidth d /\
    animate d t s =
      Some (mkLoop (Some (nextHandle s)) (Some t) o v (Translate3d (- o))
                   (pending s ++ [(nextHandle s, d)]) (S (nextHandle s))
                   (S (framesRun s))).
Proof.
  intros Hw dt v.
  destruct (wrap_range (offsetRef s + v * dt) (seqWidth d) Hw)
    as (o & Ho & Hr).
  exists o. split; [exact Ho | split; [exact Hr |]].
  unfold animate. fold dt. fold v.
  destruct (Rlt_dec 0 (seqWidth d)) as [_ | N]; [| contradiction].
  rewrite Ho. reflexivity.
Qed.

(** A frame while the sequence width is not positive. *)
Lemma animate_frozen (d : Deps) (t : R) (s : Loop) :
  ~ 0 < seqWidth d ->
  animate d t s =
    Some (mkLoop (Some (nextHandle s)) (Some t) (offsetRef s)
                 (smooth d (deltaTime (lastTimestampRef s) t) (velocityRef s))
                 (transform s)
                 (pending s ++ [(nextHandle s, d)]) (S (nextHandle s))
                 (S (framesRun s))).
Proof.
  intros Hw. unfold animate.
  destruct (Rlt_dec 0 (seqWidth d)) as [P | _]; [contradiction |].
  reflexivity.
Qed.

(** A frame callback always returns, and schedules its successor. *)
Lemma animate_total (d : Deps) (t : R) (s : Loop) :
  exists s',
    animate d t s = Some s' /\
    lastTimestampRef s' = Some t /\
    velocityRef s' =
      smooth d (deltaTime (lastTimestampRef s) t) (velocityRef s) /\
    pending s' = pending s ++ [(nextHandle s, d)] /\
    rafRef s' = Some (nextHandle s) /\
    nextHandle s' = S (nextHandle s) /\
    framesRun s' = S (framesRun s).
Proof.
  destruct (Rlt_dec 0 (seqWidth d)) as [Hw | Hw].
  - destruct (animate_moving d t s Hw) as (o & _ & _ & ->).
    eexists; split; [reflexivity |]. simpl. tauto.
  - rewrite (animate_frozen d t s Hw).
    eexists; split; [reflexivity |]. simpl. tauto.
Qed.

(** With one callback scheduled, the host's frame is that callback. *)
Lemma frame_single (d : Deps) (t : R) (s : Loop) (h : nat) :
  pending s = [(h, d)] ->
  frame t s =
    animate d t (mkLoop (rafRef s) (lastTimestampRef s) (offsetRef s)
                        (velocityRef s) (transform s) [] (nextHandle s)
                        (framesRun s)).
Proof. intros Hp. unfold frame. rewrite Hp. reflexivity. Qed.

(** Induction over a run of frames driven by one closure: a property that
    every frame keeps holds after all of them. *)
Lemma frames_invariant (d : Deps) (I : Loop -> Prop) :
  (forall t s h, I s -> pending s = [(h, d)] ->
     exists s' h', frame t s = Some s' /\ I s' /\ pending s' = [(h', d)]) ->
  forall ts s h, I s -> pending s = [(h, d)] ->
    exists s' h', frames ts s = Some s' /\ I s' /\ pending s' = [(h', d)].
Proof.
  intros Hstep ts. induction ts as [| t ts IH]; intros s h HI Hp.
  - exists s, h. simpl. auto.
  - destruct (Hstep t s h HI Hp) as (s1 & h1 & Hf & HI1 & Hp1).
    simpl. rewrite Hf. exact (IH s1 h1 HI1 Hp1).
Qed.

(** Running the effect without the reduced-motion preference: the offset is
    normalized when the width is positive, and one frame is scheduled. *)
Lemma effect_animating (d : Deps) (s : Loop) :
  exists o tr,
    (if Rlt_dec 0 (seqWidth d)
     then wrap (offsetRef s) (seqWidth d) = Some o /\
          tr = Translate3d (- o) /\ 0 <= o < seqWidth d
     else o = offsetRef s /\ tr = transform s) /\
    effect true false d s =
      Some (mkLoop (Some (nextHandle s)) (lastTimestampRef s) o
                   (velocityRef s) tr (pending s ++ [(nextHandle s, d)])
                   (S (nextHandle s)) (framesRun s),
            AnimatingCleanup).
Proof.
  unfold effect. simpl.
  destruct (Rlt_dec 0 (seqWidth d)) as [Hw | Hw].
  - destruct (wrap_range (offsetRef s) (seqWidth d) Hw) as (o & Ho & Hr).
    exists o, (Translate3d (- o)). rewrite Ho. auto.
  - exists (offsetRef s), (transform s). auto.
Qed.

(** The same with the preference: the transform is pinned and nothing is
    scheduled. *)
Lemma effect_reduced (d : Deps) (s : Loop) :
  exists o,
    (if Rlt_dec 0 (seqWidth d)
     then wrap (offsetRef s) (seqWidth d) = Some o /\ 0 <= o < seqWidth d
     else o = offsetRef s) /\
    effect true true d s =
      Some (mkLoop (rafRef s) (lastTimestampRef s) o (velocityRef s)
                   (Translate3d 0) (pending s) (nextHandle s) (framesRun s),
            ReducedCleanup).
Proof.
  unfold effect. simpl.
  destruct (Rlt_dec 0 (seqWidth d)) as [Hw | Hw].
  - destruct (wrap_range (offsetRef s) (seqWidth d) Hw) as (o & Ho & Hr).
    exists o. rewrite Ho. auto.
  - exists (offsetRef s). auto.
Qed.

End Frames.


(** ** C4: delta time and exponential smoothing *)

Section Smoothing.

Import AnimationLoop Timeline.

Lemma deltaTime_first (t : R) : deltaTime None t = 0.
Proof.
  unfold deltaTime, JsNum.max. replace (t - t) with 0 by ring.
  rewrite Rmax_left by lra. lra.
Qed.

Lemma deltaTime_nonneg (last : option R) (t : R) : 0 <= deltaTime last t.
Proof.
  unfold deltaTime, JsNum.max.
  match goal with |- context [Rmax 0 ?x] => pose proof (Rmax_l 0 x) end.
  lra.
Qed.

Lemma deltaTime_forward (l t : R) :
  l <= t -> deltaTime (Some l) t = (t - l) / 1000.
Proof.
  intros H. unfold deltaTime, JsNum.max. rewrite Rmax_right by lra.
  reflexivity.
Qed.

Lemma easingFactor_zero : easingFactor 0 = 0.
Proof.
  unfold easingFactor, ANIMATION_CONFIG.SMOOTH_TAU.
  replace (- 0 / 0.25) with 0 by lra.
  rewrite exp_0. ring.
Qed.

(** The easing factor is between 0 and [dt / tau]. *)
Lemma easingFactor_bounds (dt : R) :
  0 <= dt -> 0 <= easingFactor dt <= dt / ANIMATION_CONFIG.SMOOTH_TAU.
Proof.
  intros Hdt. unfold easingFactor, ANIMATION_CONFIG.SMOOTH_TAU.
  pose proof (exp_ineq1_le (- dt / 0.25)) as Hlo.
  assert (Hhi : exp (- dt / 0.25) <= 1).
  { destruct (Req_dec_T dt 0) as [-> | Hne].
    - replace (- 0 / 0.25) with 0 by lra. rewrite exp_0. lra.
    - rewrite <- exp_0. left. apply exp_increasing. lra. }
  lra.
Qed.

(** Easing toward 0 multiplies the velocity by [exp (- dt / tau)]. *)
Lemma smooth_to_zero (d : Deps) (dt v : R) :
  target d = 0 ->
  smooth d dt v = v * exp (- dt / ANIMATION_CONFIG.SMOOTH_TAU).
Proof. intros H. unfold smooth, easingFactor. rewrite H. ring. Qed.

Lemma last_cons (x : R) (l : list R) :
  forall d, last (x :: l) d = last l x.
Proof.
  revert x. induction l as [| y l IH]; intros x d; [reflexivity |].
  change (last (x :: y :: l) d) with (last (y :: l) d).
  rewrite (IH y d), (IH y x). reflexivity.
Qed.

(** Frames at ascending timestamps, easing toward 0. *)
Lemma frames_decay (d : Deps) :
  target d = 0 ->
  forall ts s h l,
    pending s = [(h, d)] -> lastTimestampRef s = Some l -> ascending l ts ->
    exists s',
      frames ts s = Some s' /\
      velocityRef s' =
        velocityRef s * exp (- elapsed l ts / ANIMATION_CONFIG.SMOOTH_TAU).
Proof.
  intros Ht ts. induction ts as [| t ts IH]; intros s h l Hp Hl Hasc.
  - exists s. split; [reflexivity |]. unfold elapsed. simpl.
    replace (- ((l - l) / 1000) / ANIMATION_CONFIG.SMOOTH_TAU) with 0
      by (unfold ANIMATION_CONFIG.SMOOTH_TAU; lra).
    rewrite exp_0. ring.
  - destruct Hasc as [Hlt Hasc]. simpl frames.
    rewrite (frame_single d t s h Hp).
    match goal with |- context [animate d t ?y] =>
      destruct (animate_total d t y)
        as (s1 & -> & Hl1 & Hv1 & Hp1 & _) end.
    simpl in Hl1, Hv1, Hp1.
    destruct (IH s1 (nextHandle s) t Hp1 Hl1 Hasc) as (s' & Hf & Hv').
    exists s'. split; [exact Hf |].
    rewrite Hv', Hv1, Hl, (deltaTime_forward l t Hlt).
    rewrite (smooth_to_zero d _ _ Ht), Rmult_assoc, <- exp_plus.
    f_equal. f_equal. unfold elapsed.
    rewrite last_cons.
    unfold ANIMATION_CONFIG.SMOOTH_TAU. lra.
Qed.

(** C4.  Every frame callback returns, with [dt = max(0, t - last) / 1000]
    ([0] when no timestamp is stored, as on the first frame after an
    activation) and the velocity moved toward the target by the factor
    [1 - exp (- dt / 0.25)].  While hovering with hover speed 0, the loop
    started from a state without stored timestamp keeps the velocity at
    activation and at the first frame, and after frames at ascending
    timestamps the velocity is [v0 * exp (- t / 0.25)], [t] the seconds since
    the first frame.  No frame moves the velocity by more than
    [|target - v| * dt / 0.25], so it has no jump. *)
Theorem velocity_smoothing :
  (forall d t s, exists s',
      animate d t s = Some s' /\
      velocityRef s' =
        velocityRef s +
        (target d - velocityRef s) *
        (1 - exp (- deltaTime (lastTimestampRef s) t / 0.25))) /\
  (forall l t, deltaTime (Some l) t = Rmax 0 (t - l) / 1000) /\
  (forall t, deltaTime None t = 0) /\
  (forall d s,
      isHovered d = true -> hoverSpeed d = Some 0 ->
      lastTimestampRef s = None -> pending s = [] ->
      exists s1,
        effect true false d s = Some (s1, AnimatingCleanup) /\
        velocityRef s1 = velocityRef s /\
        forall t0 ts, ascending t0 ts ->
          exists s',
            frames (t0 :: ts) s1 = Some s' /\
            velocityRef s' = velocityRef s * exp (- elapsed t0 ts / 0.25)) /\
  (forall d dt v,
      0 <= dt ->
      Rabs (smooth d dt v - v) <= Rabs (target d - v) * (dt / 0.25)).
Proof.
  split; [| split; [| split; [| split]]].
  - intros d t s.
    destruct (animate_total d t s) as (s' & Ha & _ & Hv & _).
    exists s'. split; [exact Ha |]. rewrite Hv. reflexivity.
  - intros l t. reflexivity.
  - exact deltaTime_first.
  - intros d s Hh Hs Hl Hp.
    assert (Ht : target d = 0) by (unfold target; rewrite Hh, Hs; reflexivity).
    destruct (effect_animating d s) as (o & tr & _ & ->).
    eexists; split; [reflexivity |]. split; [reflexivity |].
    intros t0 ts Hasc. simpl frames.
    match goal with |- context [frame t0 ?y] =>
      rewrite (frame_single d t0 y (nextHandle s))
        by (simpl; rewrite Hp; reflexivity) end.
    match goal with |- context [animate d t0 ?y] =>
      destruct (animate_total d t0 y)
        as (s1 & -> & Hl1 & Hv1 & Hp1 & _) end.
    simpl in Hl1, Hv1, Hp1.
    destruct (frames_decay d Ht ts s1 _ t0 Hp1 Hl1 Hasc) as (s' & Hf & Hv').
    exists s'. split; [exact Hf |].
    rewrite Hv', Hv1, Hl, deltaTime_first.
    unfold smooth. rewrite easingFactor_zero.
    unfold ANIMATION_CONFIG.SMOOTH_TAU. f_equal. ring.
  - intros d dt v Hdt. unfold smooth.
    replace (v + (target d - v) * easingFactor dt - v)
      with ((target d - v) * easingFactor dt) by ring.
    destruct (easingFactor_bounds dt Hdt) as [Hlo Hhi].
    unfold ANIMATION_CONFIG.SMOOTH_TAU in Hhi.
    rewrite Rabs_mult, (Rabs_right (easingFactor dt)) by lra.
    apply Rmult_le_compat_l; [apply Rabs_pos | exact Hhi].
Qed.

Lemma velocity_smoothing_witness :
  exists s1 s',
    effect true false (mkDeps 120 200 true (Some 0))
           (mkLoop None None 50 120 (Translate3d (-50)) [] 7%nat 3%nat)
      = Some (s1, AnimatingCleanup) /\
    frames [1000; 1100; 1250] s1 = Some s' /\
    velocityRef s' = 120 * exp (- elapsed 1000 [1100; 1250] / 0.25) /\
    Rabs (smooth (mkDeps 120 200 true (Some 0)) 0.016 120 - 120)
      <= Rabs (target (mkDeps 120 200 true (Some 0)) - 120) * (0.016 / 0.25).
Proof.
  destruct velocity_smoothing as (_ & _ & _ & Hdecay & Hcont).
  destruct (Hdecay (mkDeps 120 200 true (Some 0))
              (mkLoop None None 50 120 (Translate3d (-50)) [] 7%nat 3%nat)
              eq_refl eq_refl eq_refl eq_refl) as (s1 & He & _ & Hf).
  destruct (Hf 1000 [1100; 1250]) as (s' & Hs & Hv).
  { simpl. lra. }
  exists s1, s'. repeat split; try assumption.
  apply Hcont. lra.
Defined.

End Smoothing.

(** ** Every state of a mounted component *)

Section Reachable.

Import Invariant.

Lemma filter_cancel (h : nat) (d : AL.Deps) :
  filter (fun p : nat * AL.Deps => negb (Nat.eqb (fst p) h)) [(h, d)] = [].
Proof. simpl. rewrite Nat.eqb_refl. reflexivity. Qed.

(** The cleanup of a running effect empties the host's queue and clears the
    frame handle and the stored timestamp; it keeps everything else. *)
Lemma cleanup_clears (m : LL.Mounted) :
  scheduled m ->
  AL.cleanup (LL.onCleanup m) (LL.loop m) =
    AL.mkLoop None None (AL.offsetRef (LL.loop m))
              (AL.velocityRef (LL.loop m)) (AL.transform (LL.loop m)) []
              (AL.nextHandle (LL.loop m)) (AL.framesRun (LL.loop m)).
Proof.
  unfold scheduled. destruct m as [p st l d c]. simpl.
  destruct c; simpl.
  - intros [].
  - intros (Hr & _ & Hp). rewrite Hr, Hp. reflexivity.
  - intros (h & Hr & Hp). rewrite Hr. simpl. rewrite Hp, filter_cancel.
    reflexivity.
Qed.

(** The layout sizer always returns; it stores a positive width or leaves
    the state as it is. *)
Lemma updateDimensions_total (cw : option N) (rw : option R) (st : LL.State) :
  exists st',
    LL.updateDimensions cw rw st = Some st' /\
    LL.isHovered st' = LL.isHovered st /\
    ((2 <= LL.copyCount st)%Z -> (2 <= LL.copyCount st')%Z) /\
    (st' = st \/ 0 < LL.seqWidth st').
Proof.
  unfold LL.updateDimensions.
  set (w := match rw with Some w => w | None => 0 end).
  destruct (Rlt_dec 0 w) as [Hw | Hw].
  - unfold JsNum.jsDiv. destruct (Req_dec_T w 0) as [E | _]; [lra |].
    eexists; split; [reflexivity |]. simpl. split; [reflexivity |].
    split; [intros _; apply Z.le_max_l |]. right.
    pose proof (Zceil_bound w). unfold JsNum.ceil. lra.
  - exists st. auto.
Qed.

(** A render keeps the invariant, whether or not the effect runs again. *)
Lemma rerender_holds (pref : bool) (p : LL.Props) (st : LL.State)
      (m : LL.Mounted) :
  holds m ->
  (2 <= LL.copyCount st)%Z ->
  LL.seqWidth st = LL.seqWidth (LL.state m) \/ 0 < LL.seqWidth st ->
  exists m', LL.rerender pref p st m = Some m' /\ holds m' /\
             LL.props m' = p /\ LL.state m' = st.
Proof.
  intros [Hd Hq Hc Hpos] Hc' Hw. unfold LL.rerender.
  destruct (LL.deps_eq_dec (LL.deps m) (LL.loopDeps p st)) as [E | NE].
  - eexists; split; [reflexivity |]. split; [| split; reflexivity].
    assert (Hsw : LL.seqWidth st = LL.seqWidth (LL.state m)).
    { rewrite Hd in E. injection E as _ Hs _ _. symmetry. exact Hs. }
    constructor; simpl.
    + exact E.
    + exact Hq.
    + exact Hc'.
    + unfold positioned in *. simpl. rewrite Hsw. exact Hpos.
  - rewrite (cleanup_clears m Hq).
    set (s0 := AL.mkLoop None None _ _ _ _ _ _).
    destruct pref.
    + destruct (effect_reduced (LL.loopDeps p st) s0) as (o & Ho & ->).
      eexists; split; [reflexivity |]. split; [| split; reflexivity].
      constructor; simpl; auto.
      * unfold scheduled. simpl. auto.
      * unfold positioned in *. simpl in *.
        destruct (Rlt_dec 0 (LL.seqWidth st)) as [P | N].
        -- destruct Ho as [_ Hr]. split; [exact Hr | discriminate].
        -- destruct Hw as [Hw | Hw]; [| contradiction].
           rewrite Hw in N |- *.
           destruct (Rlt_dec 0 (LL.seqWidth (LL.state m))); [contradiction |].
           subst o. tauto.
    + destruct (effect_animating (LL.loopDeps p st) s0) as (o & tr & Ho & ->).
      eexists; split; [reflexivity |]. split; [| split; reflexivity].
      constructor; simpl; auto.
      * unfold scheduled. simpl. eauto.
      * unfold positioned in *. simpl in *.
        destruct (Rlt_dec 0 (LL.seqWidth st)) as [P | N].
        -- destruct Ho as (_ & Htr & Hr). split; [exact Hr | intros _; exact Htr].
        -- destruct Hw as [Hw | Hw]; [| contradiction].
           rewrite Hw in N |- *.
           destruct (Rlt_dec 0 (LL.seqWidth (LL.state m))); [contradiction |].
           destruct Ho as [-> ->]. exact Hpos.
Qed.

(** The state right after mount. *)
Lemma mount_holds (pref : bool) (p : LL.Props) :
  exists m, LL.mount pref p = Some m /\ holds m /\
            LL.props m = p /\ LL.state m = LL.initialState.
Proof.
  unfold LL.mount. destruct pref.
  - destruct (effect_reduced (LL.loopDeps p LL.initialState) AL.initial)
      as (o & Ho & ->).
    eexists; split; [reflexivity |]. split; [| split; reflexivity].
    simpl in Ho. destruct (Rlt_dec 0 0) as [P | _]; [lra |]. subst o.
    constructor; simpl; auto.
    + unfold scheduled. simpl. auto.
    + unfold ANIMATION_CONFIG.MIN_COPIES. lia.
    + unfold positioned. simpl.
      destruct (Rlt_dec 0 0) as [P | _]; [lra |]. auto.
  - destruct (effect_animating (LL.loopDeps p LL.initialState) AL.initial)
      as (o & tr & Ho & ->).
    eexists; split; [reflexivity |]. split; [| split; reflexivity].
    simpl in Ho. destruct (Rlt_dec 0 0) as [P | _]; [lra |].
    destruct Ho as [-> ->].
    constructor; simpl; auto.
    + unfold scheduled. simpl. eauto.
    + unfold ANIMATION_CONFIG.MIN_COPIES. lia.
    + unfold positioned. simpl.
      destruct (Rlt_dec 0 0) as [P | _]; [lra |]. auto.
Qed.

(** No event gets the component stuck or produces a number that is not
    finite, and every event keeps the invariant. *)
Lemma step_holds (pref : bool) (e : LL.Event) (m : LL.Mounted) :
  holds m -> exists m', LL.step pref e m = Some m' /\ holds m'.
Proof.
  intros H. pose proof H as [Hd Hq Hc Hpos].
  destruct e as [| | p | cw rw | t]; simpl.
  - destruct (rerender_holds pref (LL.props m)
                (LL.handleMouseEnter (LL.props m) (LL.state m)) m H)
      as (m' & Hs & Hm & _).
    + unfold LL.handleMouseEnter. destruct (LL.hoverSpeed (LL.props m)); auto.
    + unfold LL.handleMouseEnter. destruct (LL.hoverSpeed (LL.props m)); auto.
    + eauto.
  - destruct (rerender_holds pref (LL.props m)
                (LL.handleMouseLeave (LL.props m) (LL.state m)) m H)
      as (m' & Hs & Hm & _).
    + unfold LL.handleMouseLeave. destruct (LL.hoverSpeed (LL.props m)); auto.
    + unfold LL.handleMouseLeave. destruct (LL.hoverSpeed (LL.props m)); auto.
    + eauto.
  - destruct (rerender_holds pref p (LL.state m) m H) as (m' & Hs & Hm & _);
      eauto.
  - destruct (updateDimensions_total cw rw (LL.state m))
      as (st & -> & _ & Hc' & Hw).
    destruct (rerender_holds pref (LL.props m) st m H) as (m' & Hs & Hm & _).
    + auto.
    + destruct Hw as [-> | Hw]; auto.
    + eauto.
  - unfold scheduled in Hq. unfold positioned in Hpos. unfold AL.frame.
    destruct (LL.onCleanup m) eqn:Ec; [contradiction | |].
    + destruct Hq as (Hr & Hl & Hp). rewrite Hp.
      eexists; split; [reflexivity |].
      constructor; simpl.
      * exact Hd.
      * unfold scheduled. simpl. auto.
      * exact Hc.
      * unfold positioned. simpl. exact Hpos.
    + destruct Hq as (h & Hr & Hp). rewrite Hp.
      set (s0 := AL.mkLoop _ _ _ _ _ _ _ _).
      assert (Hsw : AL.seqWidth (LL.deps m) = LL.seqWidth (LL.state m))
        by (rewrite Hd; reflexivity).
      destruct (Rlt_dec 0 (LL.seqWidth (LL.state m))) as [P | N].
      * destruct (animate_moving (LL.deps m) t s0) as (o & _ & Hr' & ->);
          [rewrite Hsw; exact P |].
        eexists; split; [reflexivity |].
        constructor; simpl.
        -- exact Hd.
        -- unfold scheduled. simpl. eauto.
        -- exact Hc.
        -- unfold positioned. simpl.
           destruct (Rlt_dec 0 (LL.seqWidth (LL.state m))); [| contradiction].
           rewrite <- Hsw. auto.
      * rewrite (animate_frozen (LL.deps m) t s0) by (rewrite Hsw; exact N).
        eexists; split; [reflexivity |].
        constructor; simpl.
        -- exact Hd.
        -- unfold scheduled. simpl. eauto.
        -- exact Hc.
        -- unfold positioned. simpl.
           destruct (Rlt_dec 0 (LL.seqWidth (LL.state m))); [contradiction |].
           exact Hpos.
Qed.

Lemma reachable_holds (m : LL.Mounted) : LL.reachable m -> holds m.
Proof.
  induction 1 as [pref p m Hm | pref e m m' _ IH Hs].
  - destruct (mount_holds pref p) as (m0 & Hm0 & H0 & _).
    rewrite Hm in Hm0. injection Hm0 as ->. exact H0.
  - destruct (step_holds pref e m IH) as (m0 & Hs0 & H0).
    rewrite Hs in Hs0. injection Hs0 as ->. exact H0.
Qed.

(** Every run of events from a state that satisfies the invariant goes
    through. *)
Lemma run_holds (es : list (bool * LL.Event)) :
  forall m, holds m -> exists m', LL.run es m = Some m' /\ holds m'.
Proof.
  induction es as [| [pref e] es IH]; intros m H.
  - exists m. auto.
  - destruct (step_holds pref e m H) as (m1 & Hs & H1).
    simpl. rewrite Hs. exact (IH m1 H1).
Qed.

End Reachable.

(** ** How an event changes props and state *)

Section Events.

Import Invariant.

Lemma rerender_props_state (pref : bool) (p : LL.Props) (st : LL.State)
      (m m' : LL.Mounted) :
  LL.rerender pref p st m = Some m' ->
  LL.props m' = p /\ LL.state m' = st.
Proof.
  unfold LL.rerender.
  destruct (LL.deps_eq_dec (LL.deps m) (LL.loopDeps p st)).
  - intros [= <-]. auto.
  - destruct (AL.effect _ _ _ _) as [[l c] |]; [| discriminate].
    intros [= <-]. auto.
Qed.

(** Props change only when the parent renders; the state changes only in
    the handlers and in [updateDimensions]. *)
Lemma step_props_state (pref : bool) (e : LL.Event) (m m' : LL.Mounted) :
  LL.step pref e m = Some m' ->
  LL.props m' = match e with LL.SetProps p => p | _ => LL.props m end /\
  match e with
  | LL.MouseEnter =>
      LL.state m' = LL.handleMouseEnter (LL.props m) (LL.state m)
  | LL.MouseLeave =>
      LL.state m' = LL.handleMouseLeave (LL.props m) (LL.state m)
  | LL.Measure cw rw =>
      LL.updateDimensions cw rw (LL.state m) = Some (LL.state m')
  | LL.SetProps _ | LL.Frame _ => LL.state m' = LL.state m
  end.
Proof.
  destruct e as [| | p | cw rw | t]; simpl.
  - intros H. apply rerender_props_state in H. exact H.
  - intros H. apply rerender_props_state in H. exact H.
  - intros H. apply rerender_props_state in H. exact H.
  - destruct (LL.updateDimensions cw rw (LL.state m)) as [st |];
      [| discriminate].
    intros H. apply rerender_props_state in H.
    destruct H as [Hp Hs]. rewrite Hs. split; [exact Hp | reflexivity].
  - destruct (AL.frame t (LL.loop m)); [| discriminate].
    intros [= <-]. auto.
Qed.

Lemma run_step (pref : bool) (e : LL.Event) (es : list (bool * LL.Event))
      (m m1 : LL.Mounted) :
  LL.step pref e m = Some m1 -> LL.run ((pref, e) :: es) m = LL.run es m1.
Proof.
  intros H.
  change (LL.run ((pref, e) :: es) m)
    with (match LL.step pref e m with
          | Some m' => LL.run es m'
          | None => None
          end).
  rewrite H. reflexivity.
Qed.

(** Frames leave props, state and the running effect as they are. *)
Lemma frames_keep (ts : list R) :
  forall m, holds m ->
    exists m',
      LL.run (Script.frameEvents ts) m = Some m' /\ holds m' /\
      LL.props m' = LL.props m /\ LL.state m' = LL.state m /\
      LL.deps m' = LL.deps m /\ LL.onCleanup m' = LL.onCleanup m.
Proof.
  induction ts as [| t ts IH]; intros m H.
  - exists m. simpl. split; [reflexivity | split; [exact H | tauto]].
  - destruct (step_holds false (LL.Frame t) m H) as (m1 & Hs & H1).
    destruct (IH m1 H1) as (m' & Hr & H' & Hp & Hst & Hd & Hc).
    exists m'. simpl in Hs |- *. rewrite Hs.
    split; [exact Hr |]. split; [exact H' |].
    destruct (AL.frame t (LL.loop m)); [| discriminate].
    injection Hs as <-. simpl in *. tauto.
Qed.

End Events.

(** ** C5: a sequence width of zero *)

Section ZeroWidth.

Import Invariant.

(** C5.  While the sequence width is 0 nothing divides by it and no number
    outside the reals appears.  A frame callback whose closure holds width
    0 returns and leaves offset and transform untouched.  In a mounted
    component whose stored width is 0 the offset and the applied translation
    are 0, every event is handled, and after any run of frames the state,
    the offset and the translation are as before.  [updateDimensions] with a
    measured width of 0, or without a sequence element, returns the state
    unchanged. *)
Theorem zero_width_frozen :
  (forall d t s,
      AL.seqWidth d = 0 ->
      exists s',
        AL.animate d t s = Some s' /\
        AL.offsetRef s' = AL.offsetRef s /\
        AL.transform s' = AL.transform s) /\
  (forall m,
      LL.reachable m -> LL.seqWidth (LL.state m) = 0 ->
      AL.offsetRef (LL.loop m) = 0 /\
      AL.translation (AL.transform (LL.loop m)) = 0 /\
      (forall pref e, exists m', LL.step pref e m = Some m') /\
      forall ts, exists m',
        LL.run (Script.frameEvents ts) m = Some m' /\
        LL.state m' = LL.state m /\
        AL.offsetRef (LL.loop m') = 0 /\
        AL.translation (AL.transform (LL.loop m')) = 0) /\
  (forall cw st,
      LL.updateDimensions cw (Some 0) st = Some st /\
      LL.updateDimensions cw None st = Some st).
Proof.
  split; [| split].
  - intros d t s Hw.
    rewrite (animate_frozen d t s) by lra.
    eexists; split; [reflexivity |]. simpl. auto.
  - intros m Hr Hw. pose proof (reachable_holds m Hr) as H.
    assert (Hzero : forall x, holds x -> LL.seqWidth (LL.state x) = 0 ->
              AL.offsetRef (LL.loop x) = 0 /\
              AL.translation (AL.transform (LL.loop x)) = 0).
    { intros x [_ _ _ Hpos] Hx. unfold positioned in Hpos.
      destruct (Rlt_dec 0 (LL.seqWidth (LL.state x))); [lra | tauto]. }
    destruct (Hzero m H Hw) as [Ho Ht].
    split; [exact Ho |]. split; [exact Ht |]. split.
    + intros pref e. destruct (step_holds pref e m H) as (m' & Hs & _).
      exists m'. exact Hs.
    + intros ts.
      destruct (frames_keep ts m H) as (m' & Hrun & H' & _ & Hst & _).
      exists m'. split; [exact Hrun |]. split; [exact Hst |].
      apply Hzero; [exact H' | rewrite Hst; exact Hw].
  - intros cw st. unfold LL.updateDimensions.
    destruct (Rlt_dec 0 0) as [P | _]; [lra |]. auto.
Qed.

Lemma zero_width_frozen_witness :
  (exists s',
      AL.animate (AL.mkDeps 120 0 false (Some 0)) 16
                 (AL.mkLoop None (Some 0) 0 60 AL.Unset [] 1%nat 1%nat)
        = Some s' /\
      AL.offsetRef s' = 0 /\ AL.transform s' = AL.Unset) /\
  exists m m',
    LL.mount false (LL.mkProps 120 LL.left None) = Some m /\
    LL.seqWidth (LL.state m) = 0 /\
    LL.run (Script.frameEvents [0; 16; 33; 33; 5000]) m = Some m' /\
    AL.offsetRef (LL.loop m') = 0 /\
    AL.translation (AL.transform (LL.loop m')) = 0.
Proof.
  destruct zero_width_frozen as (Ha & Hc & _).
  split.
  - exact (Ha (AL.mkDeps 120 0 false (Some 0)) 16
              (AL.mkLoop None (Some 0) 0 60 AL.Unset [] 1%nat 1%nat) eq_refl).
  - destruct (mount_holds false (LL.mkProps 120 LL.left None))
      as (m & Hm & _ & _ & Hst).
    assert (Hw : LL.seqWidth (LL.state m) = 0) by (rewrite Hst; reflexivity).
    destruct (Hc m (LL.reach_mount _ _ _ Hm) Hw) as (_ & _ & _ & Hf).
    destruct (Hf [0; 16; 33; 33; 5000]) as (m' & Hrun & _ & Ho & Ht).
    exists m, m'. auto.
Defined.

End ZeroWidth.

(** ** C3: the number of copies *)

Section CopyCount.

Import Invariant.


(** What a measurement with a positive width stores. *)
Lemma updateDimensions_positive (cw : option N) (w : R) (st : LL.State) :
  0 < w ->
  LL.updateDimensions cw (Some w) st =
    Some (LL.mkState (IZR (Zceil w))
                     (Z.max 2 (Zceil (LL.pixels cw / w) + 2))
                     (LL.isHovered st)).
Proof.
  intros Hw. unfold LL.updateDimensions.
  destruct (Rlt_dec 0 w) as [_ | N]; [| contradiction].
  unfold JsNum.jsDiv. destruct (Req_dec_T w 0) as [E | _]; [lra |].
  reflexivity.
Qed.


Lemma updateDimensions_measured (cw : option N) (rw : option R)
      (st st' : LL.State) :
  measured st -> LL.updateDimensions cw rw st = Some st' -> measured st'.
Proof.
  intros Hm. destruct rw as [w |].
  - destruct (Rlt_dec 0 w) as [Hw | Hw].
    + rewrite (updateDimensions_positive cw w st Hw). intros [= <-].
      unfold measured. simpl.
      pose proof (Zceil_bound w).
      destruct (Rlt_dec 0 (IZR (Zceil w))) as [_ | N]; [| lra].
      exists cw, w. auto.
    + unfold LL.updateDimensions.
      destruct (Rlt_dec 0 w) as [P | _]; [contradiction |].
      intros [= <-]. exact Hm.
  - unfold LL.updateDimensions.
    destruct (Rlt_dec 0 0) as [P | _]; [lra |].
    intros [= <-]. exact Hm.
Qed.

Lemma reachable_measured (m : LL.Mounted) :
  LL.reachable m -> measured (LL.state m).
Proof.
  induction 1 as [pref p m Hm | pref e m m' _ IH Hs].
  - destruct (mount_holds pref p) as (m0 & Hm0 & _ & _ & Hst).
    rewrite Hm in Hm0. injection Hm0 as ->. rewrite Hst.
    unfold measured. simpl.
    destruct (Rlt_dec 0 0) as [P | _]; [lra | auto].
  - destruct (step_props_state pref e m m' Hs) as [_ Hst].
    destruct e as [| | p | cw rw | t].
    + rewrite Hst. unfold LL.handleMouseEnter.
      destruct (LL.hoverSpeed (LL.props m)); exact IH.
    + rewrite Hst. unfold LL.handleMouseLeave.
      destruct (LL.hoverSpeed (LL.props m)); exact IH.
    + rewrite Hst. exact IH.
    + exact (updateDimensions_measured cw rw _ _ IH Hst).
    + rewrite Hst. exact IH.
Qed.



End CopyCount.

(** ** C1: the offset stays in [[0, sequenceWidth)] *)

Section OffsetRange.

Import AnimationLoop.

(** C1.  With a positive sequence width, a frame callback leaves the offset
    in [[0, seqWidth)] from any state, at any timestamp and for any velocity
    and target; and after the effect has started the loop (which normalizes
    the offset the same way), the offset is in that range after every run of
    frames, whatever their timestamps: increasing, repeated or out of
    order.  In a mounted component the offset is in [[0, seqWidth)] in every
    state in which the stored sequence width is positive. *)
Theorem offset_in_range :
  (forall d,
      0 < seqWidth d ->
      (forall t s, exists s',
          animate d t s = Some s' /\ 0 <= offsetRef s' < seqWidth d) /\
      (forall s, pending s = [] ->
         exists s1,
           effect true false d s = Some (s1, AnimatingCleanup) /\
           0 <= offsetRef s1 < seqWidth d /\
           forall ts, exists s',
             frames ts s1 = Some s' /\ 0 <= offsetRef s' < seqWidth d)) /\
  (forall m,
      LogoLoop.reachable m ->
      0 < LogoLoop.seqWidth (LogoLoop.state m) ->
      0 <= offsetRef (LogoLoop.loop m)
        < LogoLoop.seqWidth (LogoLoop.state m)).
Proof.
  split.
  - intros d Hw. split.
    + intros t s. destruct (animate_moving d t s Hw) as (o & _ & Hr & ->).
      eexists; split; [reflexivity | exact Hr].
    + intros s Hp.
      destruct (effect_animating d s) as (o & tr & Hn & ->).
      destruct (Rlt_dec 0 (seqWidth d)) as [_ | N]; [| contradiction].
      destruct Hn as (_ & _ & Hr).
      eexists; split; [reflexivity |]. split; [exact Hr |].
      intros ts.
      assert (Hstep : forall t x h,
                 0 <= offsetRef x < seqWidth d -> pending x = [(h, d)] ->
                 exists x' h', frame t x = Some x' /\
                   0 <= offsetRef x' < seqWidth d /\ pending x' = [(h', d)]).
      { intros t x h Hx Hpx. rewrite (frame_single d t x h Hpx).
        match goal with |- context [animate d t ?y] =>
          destruct (animate_moving d t y Hw) as (o' & _ & Ho' & ->) end.
        eexists _, _. split; [reflexivity |]. simpl. auto. }
      match goal with |- context [frames ts ?y] =>
        destruct (frames_invariant d _ Hstep ts y (nextHandle s))
          as (s' & h' & Hf & Hr' & _) end.
      * simpl. exact Hr.
      * simpl. rewrite Hp. reflexivity.
      * exists s'. auto.
  - intros m Hr Hw.
    pose proof (Invariant.position m (reachable_holds m Hr)) as Hpos.
    unfold Invariant.positioned in Hpos.
    destruct (Rlt_dec 0 (LogoLoop.seqWidth (LogoLoop.state m)));
      [tauto | contradiction].
Qed.

Lemma offset_in_range_witness :
  0 < 200 /\
  (exists s1 s',
      effect true false (mkDeps (-120) 200 false (Some 0)) initial
        = Some (s1, AnimatingCleanup) /\
      frames [0; 16; 8; 8; 4000] s1 = Some s' /\
      0 <= offsetRef s' < 200) /\
  exists m0 m1,
    LogoLoop.mount false (LogoLoop.mkProps (-120) LogoLoop.left None)
      = Some m0 /\
    LogoLoop.run [(false, LogoLoop.Measure (Some 250%N) (Some 200));
                  (false, LogoLoop.Frame 0); (false, LogoLoop.Frame 4000);
                  (false, LogoLoop.Frame 16)] m0 = Some m1 /\
    0 <= offsetRef (LogoLoop.loop m1) < LogoLoop.seqWidth (LogoLoop.state m1).
Proof.
  assert (Hw : 0 < seqWidth (mkDeps (-120) 200 false (Some 0)))
    by (simpl; lra).
  destruct offset_in_range as [Hloop Hreach].
  split; [lra |]. split.
  - destruct (Hloop _ Hw) as [_ H].
    destruct (H initial eq_refl) as (s1 & He & _ & Hf).
    destruct (Hf [0; 16; 8; 8; 4000]) as (s' & Hs & Hr).
    exists s1, s'. auto.
  - destruct (mount_holds false (LogoLoop.mkProps (-120) LogoLoop.left None))
      as (m0 & Hm0 & H0 & _ & Hs0).
    pose proof (LogoLoop.reach_mount _ _ _ Hm0) as R0.
    destruct (step_holds false (LogoLoop.Measure (Some 250%N) (Some 200)) m0 H0)
      as (ma & Ha & HHa).
    pose proof (LogoLoop.reach_step _ _ _ _ R0 Ha) as Ra.
    destruct (step_holds false (LogoLoop.Frame 0) ma HHa) as (mb & Hb & HHb).
    pose proof (LogoLoop.reach_step _ _ _ _ Ra Hb) as Rb.
    destruct (step_holds false (LogoLoop.Frame 4000) mb HHb)
      as (mc & Hc & HHc).
    pose proof (LogoLoop.reach_step _ _ _ _ Rb Hc) as Rc.
    destruct (step_holds false (LogoLoop.Frame 16) mc HHc) as (m1 & Hd & _).
    pose proof (LogoLoop.reach_step _ _ _ _ Rc Hd) as R1.
    assert (Hpos : 0 < LogoLoop.seqWidth (LogoLoop.state m1)).
    { destruct (step_props_state _ _ _ _ Ha) as [_ Esa]. simpl in Esa.
      destruct (step_props_state _ _ _ _ Hb) as [_ Esb]. simpl in Esb.
      destruct (step_props_state _ _ _ _ Hc) as [_ Esc]. simpl in Esc.
      destruct (step_props_state _ _ _ _ Hd) as [_ Esd]. simpl in Esd.
      rewrite Hs0 in Esa.
      rewrite (updateDimensions_positive (Some 250%N) 200
                 LogoLoop.initialState) in Esa by lra.
      injection Esa as Esa. rewrite Esd, Esc, Esb, <- Esa. simpl.
      pose proof (Zceil_bound 200). lra. }
    exists m0, m1.
    rewrite (run_step _ _ _ _ _ Ha), (run_step _ _ _ _ _ Hb),
      (run_step _ _ _ _ _ Hc), (run_step _ _ _ _ _ Hd).
    split; [exact Hm0 |]. split; [reflexivity |].
    exact (Hreach m1 R1 Hpos).
Defined.

End OffsetRange.

(** ** C2: the velocity target *)

Section Target.

Import Invariant.

(** The target velocity is [|speed|] with the sign of the direction times
    the sign of the speed. *)
Lemma targetVelocity_formula (p : LL.Props) :
  LL.targetVelocity p =
    Rabs (LL.speed p)
    * (match LL.direction p with LL.left => 1 | LL.right => -1 end)
    * Script.sign (LL.speed p).
Proof.
  unfold LL.targetVelocity, Script.sign, JsNum.abs.
  destruct (Rlt_dec (LL.speed p) 0) as [Hn | Hn]; [reflexivity |].
  destruct (Rlt_dec 0 (LL.speed p)) as [Hp | Hp]; [reflexivity |].
  assert (E : LL.speed p = 0) by lra. rewrite E, Rabs_R0. ring.
Qed.

(** A negative speed reverses the direction: the target velocity is the
    speed itself for [left] and its opposite for [right]. *)
Lemma targetVelocity_signed (p : LL.Props) :
  LL.targetVelocity p =
    match LL.direction p with
    | LL.left => LL.speed p
    | LL.right => - LL.speed p
    end.
Proof.
  unfold LL.targetVelocity, JsNum.abs.
  destruct (Rlt_dec (LL.speed p) 0) as [Hn | Hn].
  - rewrite Rabs_left by exact Hn. destruct (LL.direction p); ring.
  - rewrite Rabs_right by lra. destruct (LL.direction p); ring.
Qed.

(** The defaults of the parameter list: 120 pixels per second leftwards. *)
Lemma targetVelocity_default :
  LL.targetVelocity (LL.withDefaults None None None) = 120.
Proof. rewrite targetVelocity_signed. reflexivity. Qed.

Lemma targetVelocity_examples :
  LL.targetVelocity (LL.mkProps 120 LL.left None) = 120 /\
  LL.targetVelocity (LL.mkProps (-120) LL.left None) = -120 /\
  LL.targetVelocity (LL.mkProps 120 LL.right None) = -120.
Proof. rewrite !targetVelocity_signed. simpl. repeat split; ring. Qed.

(** The target of a frame, in terms of the component: the hook is handed
    the effective hover speed, which is never [undefined], so the hover flag
    alone selects it. *)
Lemma frame_target (p : LL.Props) (st : LL.State) :
  AL.target (LL.loopDeps p st) =
    if LL.isHovered st then LL.effectiveHoverSpeed p
    else LL.targetVelocity p.
Proof. unfold AL.target. simpl. destruct (LL.isHovered st); reflexivity. Qed.

(** With a hover speed configured, a hovered component eases toward it. *)
Lemma frame_target_configured (p : LL.Props) (st : LL.State) (h : R) :
  LL.hoverSpeed p = Some h ->
  AL.target (LL.loopDeps p st) =
    if LL.isHovered st then h else LL.targetVelocity p.
Proof.
  intros Hh. rewrite frame_target. unfold LL.effectiveHoverSpeed.
  rewrite Hh. reflexivity.
Qed.

(** C2, the code on a prop change during a hover.  The component is mounted
    with [hoverSpeed = 0], the pointer enters, and the parent then renders
    it without [hoverSpeed]: the hover flag is still set, and the frame
    target is 0, not the base target 120.  The pointer leaving does not
    clear the flag, so the target stays 0. *)
Theorem hover_target_after_unset :
  exists m0 m1 m2 m3,
    LL.mount false (LL.mkProps 120 LL.left (Some 0)) = Some m0 /\
    LL.step false LL.MouseEnter m0 = Some m1 /\
    LL.step false (LL.SetProps (LL.mkProps 120 LL.left None)) m1 = Some m2 /\
    LL.step false LL.MouseLeave m2 = Some m3 /\
    LL.hoverSpeed (LL.props m2) = None /\
    LL.targetVelocity (LL.props m2) = 120 /\
    AL.target (LL.deps m2) = 0 /\
    AL.target (LL.deps m3) = 0.
Proof.
  destruct (mount_holds false (LL.mkProps 120 LL.left (Some 0)))
    as (m0 & Hm0 & H0 & Hp0 & Hs0).
  destruct (step_holds false LL.MouseEnter m0 H0) as (m1 & Hm1 & H1).
  destruct (step_holds false (LL.SetProps (LL.mkProps 120 LL.left None)) m1 H1)
    as (m2 & Hm2 & H2).
  destruct (step_holds false LL.MouseLeave m2 H2) as (m3 & Hm3 & H3).
  exists m0, m1, m2, m3.
  destruct (step_props_state _ _ _ _ Hm1) as [Hp1 Hs1].
  destruct (step_props_state _ _ _ _ Hm2) as [Hp2 Hs2].
  destruct (step_props_state _ _ _ _ Hm3) as [Hp3 Hs3].
  rewrite Hp0, Hs0 in Hs1. rewrite Hs1 in Hs2. simpl in Hs2.
  rewrite Hp2, Hs2 in Hs3. simpl in Hs3. rewrite Hp2 in Hp3.
  rewrite (deps_current m2 H2), (deps_current m3 H3).
  rewrite !frame_target, Hp2, Hp3, Hs2, Hs3. simpl.
  repeat split; try assumption; try reflexivity.
  rewrite targetVelocity_signed. reflexivity.
Qed.

End Target.

(** ** C7: the reduced-motion preference *)

Section ReducedMotion.

Import Invariant.

(** A render whose dependency values differ from those of the running
    effect: the cleanup runs, then the effect. *)
Lemma rerender_changed (pref : bool) (p : LL.Props) (st : LL.State)
      (m : LL.Mounted) :
  holds m -> LL.deps m <> LL.loopDeps p st ->
  exists o tr,
    (if Rlt_dec 0 (LL.seqWidth st)
     then AL.wrap (AL.offsetRef (LL.loop m)) (LL.seqWidth st) = Some o /\
          tr = AL.Translate3d (- o) /\ 0 <= o < LL.seqWidth st
     else o = AL.offsetRef (LL.loop m) /\ tr = AL.transform (LL.loop m)) /\
    LL.rerender pref p st m =
      Some (LL.mkMounted p st
              (if pref
               then AL.mkLoop None None o (AL.velocityRef (LL.loop m))
                              (AL.Translate3d 0) []
                              (AL.nextHandle (LL.loop m))
                              (AL.framesRun (LL.loop m))
               else AL.mkLoop (Some (AL.nextHandle (LL.loop m))) None o
                              (AL.velocityRef (LL.loop m)) tr
                              [(AL.nextHandle (LL.loop m), LL.loopDeps p st)]
                              (S (AL.nextHandle (LL.loop m)))
                              (AL.framesRun (LL.loop m)))
              (LL.loopDeps p st)
              (if pref then AL.ReducedCleanup else AL.AnimatingCleanup)).
Proof.
  intros H NE. unfold LL.rerender.
  destruct (LL.deps_eq_dec (LL.deps m) (LL.loopDeps p st)) as [E | _];
    [contradiction |].
  rewrite (cleanup_clears m (queue m H)).
  set (s0 := AL.mkLoop None None _ _ _ _ _ _).
  destruct pref.
  - destruct (effect_reduced (LL.loopDeps p st) s0) as (o & Ho & ->).
    exists o, (if Rlt_dec 0 (LL.seqWidth st)
               then AL.Translate3d (- o) else AL.transform (LL.loop m)).
    split; [| reflexivity]. simpl in Ho.
    destruct (Rlt_dec 0 (LL.seqWidth st)); tauto.
  - destruct (effect_animating (LL.loopDeps p st) s0) as (o & tr & Ho & ->).
    exists o, tr. split; [| reflexivity]. simpl in Ho.
    destruct (Rlt_dec 0 (LL.seqWidth st)); tauto.
Qed.

Lemma mount_reduced (p : LL.Props) :
  LL.mount true p =
    Some (LL.mkMounted p LL.initialState
            (AL.mkLoop None None 0 0 (AL.Translate3d 0) [] 0%nat 0%nat)
            (LL.loopDeps p LL.initialState) AL.ReducedCleanup).
Proof.
  unfold LL.mount, AL.effect. simpl.
  destruct (Rlt_dec 0 0) as [P | _]; [lra | reflexivity].
Qed.

Lemma mount_animating (p : LL.Props) :
  LL.mount false p =
    Some (LL.mkMounted p LL.initialState
            (AL.mkLoop (Some 0%nat) None 0 0 AL.Unset
                       [(0%nat, LL.loopDeps p LL.initialState)] 1%nat 0%nat)
            (LL.loopDeps p LL.initialState) AL.AnimatingCleanup).
Proof.
  unfold LL.mount, AL.effect. simpl.
  destruct (Rlt_dec 0 0) as [P | _]; [lra | reflexivity].
Qed.

(** While the preference is signalled, a render keeps the pinned state. *)
Lemma rerender_pinned (p : LL.Props) (st : LL.State) (m m' : LL.Mounted) :
  holds m -> pinned m ->
  LL.rerender true p st m = Some m' -> pinned m'.
Proof.
  intros H (Hc & Ht & Hp & Hr & Hf & Ho) Hre.
  destruct (LL.deps_eq_dec (LL.deps m) (LL.loopDeps p st)) as [E | NE].
  - unfold LL.rerender in Hre.
    destruct (LL.deps_eq_dec (LL.deps m) (LL.loopDeps p st)) as [_ | NE];
      [| contradiction].
    injection Hre as <-. unfold pinned. simpl. tauto.
  - destruct (rerender_changed true p st m H NE) as (o & tr & Hn & Hre').
    rewrite Hre in Hre'. injection Hre' as ->.
    unfold pinned. simpl. repeat split; try assumption.
    destruct (Rlt_dec 0 (LL.seqWidth st)) as [Hw | Hw].
    + destruct Hn as (Hwrap & _ & _).
      rewrite Ho, (wrap_fixed 0 (LL.seqWidth st)) in Hwrap by lra.
      injection Hwrap as <-. reflexivity.
    + destruct Hn as [-> _]. exact Ho.
Qed.

Lemma step_pinned (pref : bool) (e : LL.Event) (m m' : LL.Mounted) :
  signalled (pref, e) -> holds m -> pinned m ->
  LL.step pref e m = Some m' -> pinned m'.
Proof.
  intros Hsig H Hpin. unfold signalled in Hsig.
  destruct e as [| | p | cw rw | t]; simpl in Hsig |- *;
    try (subst pref).
  - apply rerender_pinned; assumption.
  - apply rerender_pinned; assumption.
  - apply rerender_pinned; assumption.
  - destruct (LL.updateDimensions cw rw (LL.state m)); [| discriminate].
    apply rerender_pinned; assumption.
  - destruct Hpin as (Hc & Ht & Hp & Hr & Hf & Ho).
    unfold AL.frame. rewrite Hp. intros [= <-].
    unfold pinned. simpl. tauto.
Qed.

(** C7, as stated, fails: the media query is read by every run of the
    effect, not once per mount.  Mounted under the preference, the
    component leaves the pinned state when the first measurement changes the
    sequence width while the host no longer signals the preference: a frame
    callback is scheduled, and it runs. *)
Lemma reduced_motion_not_terminal :
  exists m0 m1 m2,
    LL.mount true (LL.mkProps 120 LL.left None) = Some m0 /\
    LL.step false (LL.Measure (Some 250%N) (Some 200)) m0 = Some m1 /\
    LL.step false (LL.Frame 0) m1 = Some m2 /\
    AL.pending (LL.loop m1) <> [] /\
    AL.framesRun (LL.loop m2) = 1%nat.
Proof.
  set (p := LL.mkProps 120 LL.left None).
  destruct (mount_holds true p) as (m0 & Hm0 & H0 & _).
  pose proof Hm0 as Hm0'. rewrite (mount_reduced p) in Hm0'.
  injection Hm0' as Em0.
  set (st1 := LL.mkState (IZR (Zceil 200))
                         (Z.max 2 (Zceil (LL.pixels (Some 250%N) / 200) + 2))
                         false).
  assert (NE : LL.deps m0 <> LL.loopDeps p st1).
  { rewrite <- Em0. simpl. intros E. injection E as E.
    pose proof (Zceil_bound 200). lra. }
  destruct (rerender_changed false p st1 m0 H0 NE) as (o & tr & _ & Hre).
  assert (Hm1 : LL.step false (LL.Measure (Some 250%N) (Some 200)) m0
                = Some (LL.mkMounted p st1
                          (AL.mkLoop (Some 0%nat) None o 0 tr
                                     [(0%nat, LL.loopDeps p st1)] 1%nat 0%nat)
                          (LL.loopDeps p st1) AL.AnimatingCleanup)).
  { assert (Es : LL.state m0 = LL.initialState) by (rewrite <- Em0; reflexivity).
    assert (Ep : LL.props m0 = p) by (rewrite <- Em0; reflexivity).
    unfold LL.step. rewrite Es, Ep.
    rewrite (updateDimensions_positive (Some 250%N) 200 LL.initialState)
      by lra.
    change (LL.isHovered LL.initialState) with false. fold st1.
    rewrite Hre. rewrite <- Em0. reflexivity. }
  destruct (animate_total (LL.loopDeps p st1) 0
              (AL.mkLoop (Some 0%nat) None o 0 tr [] 1%nat 0%nat))
    as (s2 & Ha & _ & _ & _ & _ & _ & Hf).
  eexists m0, _, (LL.mkMounted p st1 s2 (LL.loopDeps p st1) AL.AnimatingCleanup).
  split; [exact Hm0 |]. split; [exact Hm1 |].
  split; [| split; [discriminate | exact Hf]].
  unfold LL.step, AL.frame. simpl. simpl in Ha. rewrite Ha. reflexivity.
Qed.

(** C7, amended.  If the host signals the reduced-motion preference at
    mount and at every later event that can run the effect again, then
    whatever happens during the mount (frames, pointer events, new props,
    measurements) every event is handled and the component stays in the
    Reduced-Motion state: the transform is [translate3d(0, 0, 0)], no frame
    callback is scheduled or has ever run, and the offset is 0. *)
Theorem reduced_motion_pinned (p : LL.Props) (es : list (bool * LL.Event)) :
  Forall signalled es ->
  exists m m',
    LL.mount true p = Some m /\
    LL.run es m = Some m' /\
    AL.transform (LL.loop m') = AL.Translate3d 0 /\
    AL.pending (LL.loop m') = [] /\
    AL.rafRef (LL.loop m') = None /\
    AL.framesRun (LL.loop m') = 0%nat /\
    AL.offsetRef (LL.loop m') = 0.
Proof.
  intros Hes.
  destruct (mount_holds true p) as (m & Hm & H & _).
  assert (Hpin : pinned m).
  { pose proof Hm as Hm'. rewrite (mount_reduced p) in Hm'.
    injection Hm' as <-. unfold pinned. simpl. tauto. }
  exists m.
  assert (Hrun : exists m', LL.run es m = Some m' /\ pinned m').
  { clear Hm. revert m H Hpin.
    induction Hes as [| [pref e] es Hsig _ IH]; intros m H Hpin.
    - exists m. auto.
    - destruct (step_holds pref e m H) as (m1 & Hs & H1).
      simpl. rewrite Hs.
      exact (IH m1 H1 (step_pinned pref e m m1 Hsig H Hpin Hs)). }
  destruct Hrun as (m' & Hrun & (_ & Ht & Hp & Hr & Hf & Ho)).
  exists m'. tauto.
Qed.

Lemma reduced_motion_pinned_witness :
  exists m m',
    LL.mount true (LL.mkProps 120 LL.left (Some 0)) = Some m /\
    LL.run [(true, LL.Measure (Some 250%N) (Some 200));
            (false, LL.Frame 0);
            (true, LL.MouseEnter);
            (false, LL.Frame 16);
            (true, LL.SetProps (LL.mkProps (-60) LL.right None));
            (false, LL.Frame 8)] m = Some m' /\
    AL.transform (LL.loop m') = AL.Translate3d 0 /\
    AL.pending (LL.loop m') = [] /\
    AL.rafRef (LL.loop m') = None /\
    AL.framesRun (LL.loop m') = 0%nat /\
    AL.offsetRef (LL.loop m') = 0.
Proof.
  apply reduced_motion_pinned.
  repeat constructor.
Defined.

End ReducedMotion.

(** ** Runs of the effect after a dependency change *)

Section Reactivation.

Import Invariant.

Lemma rerender_restarted (pref : bool) (p : LL.Props) (st : LL.State)
      (m m' : LL.Mounted) :
  holds m ->
  LL.rerender pref p st m = Some m' ->
  LL.deps m' <> LL.deps m ->
  exists o tr, restarted pref m m' o tr.
Proof.
  intros H Hre Hne.
  destruct (LL.deps_eq_dec (LL.deps m) (LL.loopDeps p st)) as [E | NE].
  - exfalso. apply Hne. unfold LL.rerender in Hre.
    destruct (LL.deps_eq_dec (LL.deps m) (LL.loopDeps p st)) as [_ | NE];
      [| contradiction].
    injection Hre as <-. reflexivity.
  - destruct (rerender_changed pref p st m H NE) as (o & tr & Hn & Hre').
    rewrite Hre in Hre'. injection Hre' as ->.
    exists o, tr. unfold restarted. simpl.
    split; [exact Hn |]. destruct pref; auto.
Qed.

(** Whatever the event, if the dependency values differ afterwards the
    effect ran again. *)
Lemma step_restarted (pref : bool) (e : LL.Event) (m m' : LL.Mounted) :
  holds m ->
  LL.step pref e m = Some m' ->
  LL.deps m' <> LL.deps m ->
  exists o tr, restarted pref m m' o tr.
Proof.
  intros H. destruct e as [| | p | cw rw | t]; simpl.
  - apply rerender_restarted; assumption.
  - apply rerender_restarted; assumption.
  - apply rerender_restarted; assumption.
  - destruct (LL.updateDimensions cw rw (LL.state m)); [| discriminate].
    apply rerender_restarted; assumption.
  - destruct (AL.frame t (LL.loop m)); [| discriminate].
    intros [= <-] Hne. simpl in Hne. contradiction.
Qed.

(** The dependency values of a state are those of its props and state. *)
Lemma dependencyChanged_deps (m m' : LL.Mounted) :
  holds m -> holds m' -> dependencyChanged m m' -> LL.deps m' <> LL.deps m.
Proof.
  intros H H' Hch E.
  rewrite (deps_current m H), (deps_current m' H') in E.
  unfold LL.loopDeps in E. injection E as E1 E2 E3 E4.
  unfold dependencyChanged in Hch.
  destruct Hch as [Hc | [Hc | [Hc | Hc]]]; contradiction.
Qed.

End Reactivation.

(** ** C10: what survives a re-activation *)

Section Persistence.

Import Invariant.



End Persistence.

(** ** C9: teardown *)

Section Teardown.

Import Invariant.

Lemma filter_none_fresh (n : nat) (l : list nat) :
  (forall x, In x l -> (x < n)%nat) ->
  filter (fun x => negb (Nat.eqb x n)) l = l.
Proof.
  intros Hl. induction l as [| x l IH]; [reflexivity |].
  simpl. destruct (Nat.eqb_spec x n) as [E | _].
  - pose proof (Hl x (or_introl eq_refl)). lia.
  - simpl. rewrite IH; [reflexivity |].
    intros y Hy. apply Hl. right. exact Hy.
Qed.

(** What [observe] accumulates over the refs: the observers added are
    exactly those whose id is in the list kept for the cleanup. *)
Lemma observe_fold (elements : list (option nat)) :
  forall (h0 h : RO.Host) (ids : list nat),
    fresh h ->
    (forall i, In i ids -> (RO.nextId h0 <= i < RO.nextId h)%nat) ->
    (RO.nextId h0 <= RO.nextId h)%nat ->
    filter (fun o => negb (existsb (Nat.eqb (fst o)) ids)) (RO.observers h)
      = RO.observers h0 ->
    RO.windowListeners h = RO.windowListeners h0 ->
    RO.callbackCalls h = RO.callbackCalls h0 ->
    exists h' ids',
      fold_left RO.observe elements (h, ids) = (h', ids') /\
      filter (fun o => negb (existsb (Nat.eqb (fst o)) ids'))
             (RO.observers h') = RO.observers h0 /\
      RO.windowListeners h' = RO.windowListeners h0 /\
      RO.callbackCalls h' = RO.callbackCalls h0.
Proof.
  induction elements as [| ref els IH]; intros h0 h ids Hf Hids Hn Hfil Hw Hc.
  - exists h, ids. simpl. auto.
  - simpl. destruct ref as [el |]; [| apply IH; assumption].
    apply IH; simpl.
    + destruct Hf as [Hfo Hfl]. split; simpl.
      * intros o Ho. apply in_app_or in Ho. destruct Ho as [Ho | [<- | []]].
        -- specialize (Hfo o Ho). lia.
        -- simpl. lia.
      * intros l Hl. specialize (Hfl l Hl). lia.
    + intros i Hi. apply in_app_or in Hi. destruct Hi as [Hi | [<- | []]].
      * specialize (Hids i Hi). lia.
      * lia.
    + lia.
    + rewrite filter_app. simpl.
      assert (Hin : existsb (Nat.eqb (RO.nextId h)) (ids ++ [RO.nextId h])
                    = true).
      { rewrite existsb_app. simpl. rewrite Nat.eqb_refl.
        rewrite orb_true_r. reflexivity. }
      rewrite Hin. simpl. rewrite app_nil_r. rewrite <- Hfil.
      apply filter_ext_in. intros o Ho.
      rewrite existsb_app. simpl. rewrite orb_false_r.
      destruct Hf as [Hfo _]. specialize (Hfo o Ho).
      destruct (Nat.eqb_spec (fst o) (RO.nextId h)) as [E | _]; [lia |].
      rewrite orb_false_r. reflexivity.
    + exact Hw.
    + exact Hc.
Qed.

(** The cleanup of the resize effect detaches exactly what the effect
    attached. *)
Lemma resize_detached (env : RO.Env) (elements : list (option nat))
      (h : RO.Host) :
  fresh h ->
  RO.observers (RO.cleanup (snd (RO.effect env elements h))
                           (fst (RO.effect env elements h)))
    = RO.observers h /\
  RO.windowListeners (RO.cleanup (snd (RO.effect env elements h))
                                 (fst (RO.effect env elements h)))
    = RO.windowListeners h.
Proof.
  intros Hf. destruct env; simpl.
  - auto.
  - split; [reflexivity |].
    rewrite filter_app. simpl. rewrite Nat.eqb_refl. simpl.
    rewrite app_nil_r. apply filter_none_fresh. apply Hf.
  - destruct (observe_fold elements h h [] Hf) as (h' & ids & -> & Ho & Hw & _);
      simpl; auto.
    + intros i [].
    + clear. induction (RO.observers h) as [| x l IH]; simpl; congruence.
Qed.

(** With nothing scheduled the host runs no callback. *)
Lemma frames_idle (ts : list R) (s : AL.Loop) :
  AL.pending s = [] -> AL.frames ts s = Some s.
Proof.
  intros Hp. induction ts as [| t ts IH]; [reflexivity |].
  simpl. unfold AL.frame. rewrite Hp. exact IH.
Qed.

Lemma step_deterministic_holds (pref : bool) (e : LL.Event)
      (m m' : LL.Mounted) :
  holds m -> LL.step pref e m = Some m' -> holds m'.
Proof.
  intros H Hs. destruct (step_holds pref e m H) as (m0 & Hs0 & H0).
  rewrite Hs in Hs0. injection Hs0 as ->. exact H0.
Qed.

(** C9, as stated, fails: the effect depends on the derived target
    velocity, not on speed and direction themselves.  Speed and direction
    both change (120 leftwards becomes -120 rightwards), the target velocity
    is 120 before and after, and the effect is not cleaned up: the scheduled
    callback stays in the host's queue and the stored timestamp is kept. *)
Lemma speed_direction_change_keeps_frame :
  exists m0 m1 m2,
    LL.mount false (LL.mkProps 120 LL.left None) = Some m0 /\
    LL.step false (LL.Frame 5) m0 = Some m1 /\
    LL.step false (LL.SetProps (LL.mkProps (-120) LL.right None)) m1
      = Some m2 /\
    LL.speed (LL.props m2) <> LL.speed (LL.props m1) /\
    LL.direction (LL.props m2) <> LL.direction (LL.props m1) /\
    AL.lastTimestampRef (LL.loop m2) = Some 5 /\
    AL.pending (LL.loop m2) = AL.pending (LL.loop m1) /\
    AL.pending (LL.loop m1) <> [].
Proof.
  set (p := LL.mkProps 120 LL.left None).
  set (p' := LL.mkProps (-120) LL.right None).
  destruct (mount_holds false p) as (m0 & Hm0 & H0 & Hp0 & Hs0).
  destruct (step_holds false (LL.Frame 5) m0 H0) as (m1 & Hm1 & H1).
  destruct (step_holds false (LL.SetProps p') m1 H1) as (m2 & Hm2 & H2).
  exists m0, m1, m2.
  destruct (step_props_state _ _ _ _ Hm1) as [Ep1 Es1].
  destruct (step_props_state _ _ _ _ Hm2) as [Ep2 Es2].
  simpl in Ep1, Es1, Ep2, Es2.
  assert (Hl1 : AL.lastTimestampRef (LL.loop m1) = Some 5 /\
                AL.pending (LL.loop m1) <> []).
  { pose proof Hm0 as Em0. rewrite (mount_animating p) in Em0.
    injection Em0 as Em0. pose proof Hm1 as Hf. rewrite <- Em0 in Hf.
    unfold LL.step, AL.frame in Hf. simpl in Hf.
    match type of Hf with context [AL.animate ?d ?t ?y] =>
      destruct (animate_total d t y) as (s1 & Ha & Hl & _ & Hpe & _) end.
    simpl in Ha. rewrite Ha in Hf. injection Hf as <-. simpl.
    split; [exact Hl | rewrite Hpe; discriminate]. }
  assert (Hloop : LL.loop m2 = LL.loop m1).
  { pose proof Hm2 as Hre. unfold LL.step, LL.rerender in Hre.
    destruct (LL.deps_eq_dec (LL.deps m1) (LL.loopDeps p' (LL.state m1)))
      as [_ | NE].
    - injection Hre as <-. reflexivity.
    - exfalso. apply NE. rewrite (deps_current m1 H1), Ep1, Hp0.
      unfold LL.loopDeps. f_equal.
      rewrite !targetVelocity_signed. simpl. ring. }
  rewrite Hloop, Ep2, Ep1, Hp0. simpl.
  destruct Hl1 as [Hl1 Hpe].
  repeat split; try assumption; try reflexivity; try discriminate.
  lra.
Qed.

(** C9, amended.  On unmount the cleanup cancels the scheduled callback
    and clears the frame handle and the stored timestamp, and no callback
    runs in any later frame.  When an event changes one of the values the
    effect depends on (the derived target velocity, the sequence width, the
    hover flag, the effective hover speed), the callback of the old closure
    is no longer scheduled, the stored timestamp is discarded, so that the
    next frame has [dt = 0], and no callback ran in between.  The cleanup
    of the resize effect detaches every observer and listener the effect
    attached. *)
Theorem teardown_clears :
  (forall m,
      LL.reachable m ->
      AL.rafRef (LL.unmount m) = None /\
      AL.lastTimestampRef (LL.unmount m) = None /\
      AL.pending (LL.unmount m) = [] /\
      forall ts, AL.frames ts (LL.unmount m) = Some (LL.unmount m)) /\
  (forall pref e m m',
      LL.reachable m ->
      LL.step pref e m = Some m' ->
      dependencyChanged m m' ->
      AL.lastTimestampRef (LL.loop m') = None /\
      (forall t, AL.deltaTime (AL.lastTimestampRef (LL.loop m')) t = 0) /\
      (AL.pending (LL.loop m') = [] \/
       AL.pending (LL.loop m')
         = [(AL.nextHandle (LL.loop m), LL.deps m')]) /\
      ~ In (LL.deps m) (map snd (AL.pending (LL.loop m'))) /\
      AL.framesRun (LL.loop m') = AL.framesRun (LL.loop m)) /\
  (forall env elements h,
      fresh h ->
      RO.observers (RO.cleanup (snd (RO.effect env elements h))
                               (fst (RO.effect env elements h)))
        = RO.observers h /\
      RO.windowListeners (RO.cleanup (snd (RO.effect env elements h))
                                     (fst (RO.effect env elements h)))
        = RO.windowListeners h).
Proof.
  split; [| split].
  - intros m Hr. pose proof (reachable_holds m Hr) as H.
    unfold LL.unmount. rewrite (cleanup_clears m (queue m H)). simpl.
    repeat split. intros ts. apply frames_idle. reflexivity.
  - intros pref e m m' Hr Hs Hch.
    pose proof (reachable_holds m Hr) as H.
    pose proof (step_deterministic_holds pref e m m' H Hs) as H'.
    pose proof (dependencyChanged_deps m m' H H' Hch) as Hne.
    destruct (step_restarted pref e m m' H Hs Hne)
      as (o & tr & _ & _ & _ & Hl).
    rewrite Hl. destruct pref; simpl.
    + repeat split; auto using deltaTime_first.
    + repeat split; auto using deltaTime_first.
      intros [E | []]. apply Hne. exact E.
  - exact resize_detached.
Qed.

Lemma teardown_clears_witness :
  exists m0 m1,
    LL.mount false (LL.mkProps 120 LL.left None) = Some m0 /\
    LL.step false (LL.Measure (Some 250%N) (Some 200)) m0 = Some m1 /\
    AL.lastTimestampRef (LL.loop m1) = None /\
    AL.pending (LL.unmount m1) = [] /\
    AL.frames [0; 16; 32] (LL.unmount m1) = Some (LL.unmount m1) /\
    RO.observers
      (RO.cleanup
         (snd (RO.effect RO.WithResizeObserver [Some 1%nat; Some 2%nat]
                         RO.emptyHost))
         (fst (RO.effect RO.WithResizeObserver [Some 1%nat; Some 2%nat]
                         RO.emptyHost))) = [].
Proof.
  destruct (mount_holds false (LL.mkProps 120 LL.left None))
    as (m0 & Hm0 & H0 & Hp0 & Hs0).
  pose proof (LL.reach_mount _ _ _ Hm0) as R0.
  destruct (step_holds false (LL.Measure (Some 250%N) (Some 200)) m0 H0)
    as (m1 & Hm1 & H1).
  pose proof (LL.reach_step _ _ _ _ R0 Hm1) as R1.
  destruct teardown_clears as (Hun & Hdep & Hres).
  destruct (Hun m1 R1) as (_ & _ & Hp & Hf).
  assert (Hch : dependencyChanged m0 m1).
  { right. left.
    destruct (step_props_state _ _ _ _ Hm1) as [_ Es1]. simpl in Es1.
    rewrite Hs0 in Es1 |- *.
    rewrite (updateDimensions_positive (Some 250%N) 200 LL.initialState)
      in Es1 by lra.
    injection Es1 as <-. simpl. pose proof (Zceil_bound 200). lra. }
  destruct (Hdep false _ m0 m1 R0 Hm1 Hch) as (Hl & _).
  destruct (Hres RO.WithResizeObserver [Some 1%nat; Some 2%nat] RO.emptyHost)
    as [Ho _].
  { split; intros x []. }
  exists m0, m1. repeat split; auto.
Defined.

End Teardown.

(** ** C6: the image loader *)

Section Images.

Import Waiting.

Lemma handleImageLoad_counted (s : IL.Loader) :
  counted s -> counted (IL.handleImageLoad s).
Proof.
  unfold counted, IL.handleImageLoad. intros H.
  destruct (Z.eqb_spec (IL.remainingImages s - 1) 0) as [E | NE]; simpl.
  - rewrite H.
    destruct (Z.leb_spec (IL.remainingImages s) 0);
      destruct (Z.leb_spec (IL.remainingImages s - 1) 0); lia.
  - rewrite H.
    destruct (Z.leb_spec (IL.remainingImages s) 0);
      destruct (Z.leb_spec (IL.remainingImages s - 1) 0); lia.
Qed.

Lemma handleImageLoad_fields (s : IL.Loader) :
  IL.remainingImages (IL.handleImageLoad s) = (IL.remainingImages s - 1)%Z /\
  IL.listeners (IL.handleImageLoad s) = IL.listeners s.
Proof.
  unfold IL.handleImageLoad.
  destruct (IL.remainingImages s - 1 =? 0)%Z; simpl; auto.
Qed.

Lemma visit_counted (s : IL.Loader) (c : bool) :
  counted s -> counted (IL.visit s c).
Proof.
  intros H. unfold IL.visit. destruct c.
  - apply handleImageLoad_counted in H. exact H.
  - exact H.
Qed.

Lemma fold_visit_counted (images : list bool) :
  forall s, counted s -> counted (fold_left IL.visit images s).
Proof.
  induction images as [| c images IH]; intros s H; simpl.
  - exact H.
  - apply IH, visit_counted, H.
Qed.

Lemma effect_counted (container : option (list bool)) :
  counted (IL.effect container).
Proof.
  unfold IL.effect. destruct container as [images |]; [| reflexivity].
  destruct (Nat.eqb_spec (List.length images) 0) as [E | NE];
    [reflexivity |].
  apply fold_visit_counted. unfold counted. simpl.
  destruct (Z.leb_spec (Z.of_nat (List.length images)) 0); [lia | reflexivity].
Qed.

Lemma dispatch_counted (e : IL.ImgEvent) (s : IL.Loader) :
  counted s -> counted (IL.dispatch e s).
Proof.
  intros H. unfold IL.dispatch.
  destruct e as [i | i].
  - destruct (IL.onLoadEvent _); [| exact H].
    apply handleImageLoad_counted. exact H.
  - destruct (IL.onErrorEvent _); [| exact H].
    apply handleImageLoad_counted. exact H.
Qed.

Lemma events_counted (es : list IL.ImgEvent) :
  forall s, counted s -> counted (IL.events es s).
Proof.
  unfold IL.events.
  induction es as [| e es IH]; intros s H; simpl.
  - exact H.
  - apply IH, dispatch_counted, H.
Qed.

(** [onLoad] is never called twice, whatever the images do. *)
Lemma onLoad_at_most_once (container : option (list bool))
      (es : list IL.ImgEvent) :
  (IL.onLoadCalls (IL.events es (IL.effect container)) <= 1)%nat.
Proof.
  pose proof (events_counted es _ (effect_counted container)) as H.
  unfold counted in H. rewrite H.
  destruct (_ <=? _)%Z; lia.
Qed.

(** *** Listeners, image by image *)






Lemma visit_fields (s : IL.Loader) (c : bool) :
  IL.listeners (IL.visit s c) = IL.listeners s ++ [registered c] /\
  IL.remainingImages (IL.visit s c)
    = (IL.remainingImages s - (if c then 1 else 0))%Z.
Proof.
  unfold IL.visit. destruct c; simpl.
  - destruct (handleImageLoad_fields s) as [-> ->]. auto.
  - split; [reflexivity | lia].
Qed.

Lemma waiting_cons (c : bool) (images : list bool) :
  waiting (map registered (c :: images))
    = ((if c then 0 else 1) + waiting (map registered images))%nat.
Proof. unfold waiting. destruct c; reflexivity. Qed.

Lemma fold_visit_fields (images : list bool) :
  forall s,
    IL.listeners (fold_left IL.visit images s)
      = IL.listeners s ++ map registered images /\
    (IL.remainingImages (fold_left IL.visit images s)
     + Z.of_nat (List.length images)
     = IL.remainingImages s + Z.of_nat (waiting (map registered images)))%Z.
Proof.
  induction images as [| c images IH]; intros s.
  - simpl. rewrite app_nil_r. split; [reflexivity | unfold waiting; simpl; lia].
  - change (fold_left IL.visit (c :: images) s)
      with (fold_left IL.visit images (IL.visit s c)).
    destruct (IH (IL.visit s c)) as [Hl Hr].
    destruct (visit_fields s c) as [El Er].
    rewrite Hl, El, <- app_assoc. split; [reflexivity |].
    rewrite Er in Hr. rewrite waiting_cons.
    change (List.length (c :: images)) with (S (List.length images)).
    destruct c; lia.
Qed.


(** *** Events of images that fire at most once *)




Lemma dispatch_ignored (e : IL.ImgEvent) (s : IL.Loader) :
  nth (IL.image e) (IL.listeners s) IL.noListeners = IL.noListeners ->
  IL.dispatch e s = s.
Proof.
  intros H. destruct e as [i | i]; simpl in *; rewrite H; reflexivity.
Qed.











(** The loader at work: three images, the second complete when the effect
    runs; the third fails, then the first loads. *)
Example loader_run :
  let s0 := IL.effect (Some [false; true; false]) in
  let s1 := IL.dispatch (IL.ImgError 2) s0 in
  let s2 := IL.dispatch (IL.ImgLoad 0) s1 in
  (IL.remainingImages s0, IL.onLoadCalls s0) = (2%Z, 0%nat) /\
  (IL.remainingImages s1, IL.onLoadCalls s1) = (1%Z, 0%nat) /\
  (IL.remainingImages s2, IL.onLoadCalls s2) = (0%Z, 1%nat).
Proof. repeat split; reflexivity. Qed.

(** After the cleanup no image event reaches the loader. *)
Lemma cleanup_silences (es : list IL.ImgEvent) (s : IL.Loader) :
  IL.events es (IL.cleanup s) = IL.cleanup s.
Proof.
  unfold IL.events.
  induction es as [| e es IH]; [reflexivity |].
  simpl. rewrite dispatch_ignored; [exact IH |].
  unfold IL.cleanup. simpl. generalize (IL.image e). clear.
  induction (IL.listeners s) as [| x l IHl]; intros [| i]; simpl; auto.
Qed.

End Images.

(** ** C8: the link around an item *)

Section Links.

Import ItemRenderer.
Local Open Scope string_scope.

(** C8, as stated, fails on image items: their link is named after [alt],
    then [title]; [ariaLabel] is not read.  The image item with
    [ariaLabel = "Acme"] and neither [alt] nor [title] gets the name
    "logo link". *)
Lemma image_link_ignores_ariaLabel :
  let item :=
    mkLogoItem None (Some "acme.png") None None None None None None
               (Some "https://acme.example") (Some "Acme") in
  href item = Some "https://acme.example" /\
  ariaLabel item = Some "Acme" /\
  child (renderLogoItemInternal None item 0)
    = Anchor "https://acme.example" "logo link" "_blank"
             "noreferrer noopener"
             (Img (Some "acme.png") None None None None "" None).
Proof. repeat split; reflexivity. Qed.

Lemma orElse_nonempty (s d : string) : s <> "" -> orElse (Some s) d = s.
Proof.
  intros H. unfold orElse.
  destruct (String.eqb_spec s ""); [contradiction | reflexivity].
Qed.

(** C8, amended.  Without a custom [renderItem], an item with a non-empty
    [href] is rendered as a link to it with [target="_blank"] and
    [rel="noreferrer noopener"].  The accessible name of the link comes
    from [ariaLabel], then [title], for an item with inline content, and
    from [alt], then [title], for an image item; it is "logo link" when
    both are missing, and when the first of them that is present is the
    empty string. *)
Theorem link_accessible_name (item : LogoItem) (index : nat) (h : string) :
  href item = Some h -> h <> "" ->
  exists name content,
    renderLogoItemInternal None item index
      = mkLi index "listitem"
             (Anchor h name "_blank" "noreferrer noopener" content) /\
    let first := if isNodeItem item then ariaLabel item else alt item in
    (forall a, first = Some a -> a <> "" -> name = a) /\
    (first = Some "" -> name = "logo link") /\
    (forall t, first = None -> title item = Some t -> t <> "" -> name = t) /\
    (first = None -> title item = Some "" -> name = "logo link") /\
    (first = None -> title item = None -> name = "logo link").
Proof.
  intros Hh Hne. unfold renderLogoItemInternal. rewrite Hh.
  destruct (String.eqb_spec h "") as [E | _]; [contradiction |].
  eexists _, _. split; [reflexivity |].
  unfold itemAriaLabel. simpl.
  destruct (isNodeItem item).
  - repeat split.
    + intros a -> Ha. simpl. apply orElse_nonempty, Ha.
    + intros ->. reflexivity.
    + intros t -> -> Ht. simpl. apply orElse_nonempty, Ht.
    + intros -> ->. reflexivity.
    + intros -> ->. reflexivity.
  - repeat split.
    + intros a -> Ha. simpl. apply orElse_nonempty, Ha.
    + intros ->. reflexivity.
    + intros t -> -> Ht. simpl. apply orElse_nonempty, Ht.
    + intros -> ->. reflexivity.
    + intros -> ->. reflexivity.
Qed.

Lemma link_accessible_name_witness :
  exists content,
    renderLogoItemInternal None
      (mkLogoItem (Some "<AcmeIcon />") None None None None None None
                  (Some "Acme Corp") (Some "https://acme.example")
                  (Some "Acme"))
      3
    = mkLi 3 "listitem"
           (Anchor "https://acme.example" "Acme" "_blank"
                   "noreferrer noopener" content).
Proof.
  destruct (link_accessible_name
              (mkLogoItem (Some "<AcmeIcon />") None None None None None None
                          (Some "Acme Corp") (Some "https://acme.example")
                          (Some "Acme"))
              3 "https://acme.example" eq_refl)
    as (name & content & Hr & Hfirst & _).
  - discriminate.
  - exists content. rewrite Hr.
    rewrite (Hfirst "Acme" eq_refl); [reflexivity | discriminate].
Defined.

(** A custom [renderItem] replaces the content, link included; an item
    without [href], or with an empty one, is not wrapped. *)
Lemma no_link (item : LogoItem) (index : nat) :
  (forall f, child (renderLogoItemInternal (Some f) item index)
             = Custom (f item index)) /\
  (truthy (href item) = false ->
   exists content,
     child (renderLogoItemInternal None item index) = Plain content).
Proof.
  split; [reflexivity |].
  unfold renderLogoItemInternal, truthy. simpl.
  destruct (href item) as [h |]; [| eexists; reflexivity].
  destruct (String.eqb h ""); [eexists; reflexivity | discriminate].
Qed.

End Links.

(** * Further properties of the code *)

(** ** The wrap-around as arithmetic modulo the sequence width *)

Section Modulo.

Import JsNum.

Lemma jsMod_multiple (x w : R) :
  w <> 0 -> exists k : Z, jsMod x w = Some (x - IZR k * w).
Proof.
  intros Hw. unfold jsMod. destruct (Req_dec_T w 0) as [E | _];
    [contradiction |].
  exists (trunc (x / w)). f_equal. ring.
Qed.

(** Two points of [[0, w)] that differ by a whole number of widths are the
    same point. *)
Lemma representative_unique (x w : R) (k k' : Z) :
  0 < w ->
  0 <= x - IZR k * w < w -> 0 <= x - IZR k' * w < w -> k = k'.
Proof.
  intros Hw Hk Hk'.
  assert (Hd : -1 < IZR (k - k') < 1).
  { rewrite minus_IZR. split; nra. }
  destruct Hd as [Hlo Hhi].
  apply lt_IZR in Hlo. apply lt_IZR in Hhi. lia.
Qed.

Lemma wrap_multiple (y w : R) :
  0 < w ->
  exists k : Z,
    AnimationLoop.wrap y w = Some (y - IZR k * w) /\
    0 <= y - IZR k * w < w.
Proof.
  intros Hw. destruct (wrap_range y w Hw) as (o & Ho & Hr).
  unfold AnimationLoop.wrap in Ho.
  destruct (jsMod_multiple y w ltac:(lra)) as (k1 & H1).
  rewrite H1 in Ho.
  destruct (jsMod_multiple (y - IZR k1 * w + w) w ltac:(lra)) as (k2 & H2).
  rewrite H2 in Ho. injection Ho as Ho.
  exists (k1 + k2 - 1)%Z.
  assert (E : y - IZR (k1 + k2 - 1) * w = o).
  { rewrite minus_IZR, plus_IZR. rewrite <- Ho. simpl. ring. }
  rewrite E. split; [| exact Hr].
  unfold AnimationLoop.wrap. rewrite H1, H2. f_equal. exact Ho.
Qed.

(** The wrapped value is the one point of [[0, w)] that differs from [x] by
    a whole number of widths; so wrapping forgets whole widths added to [x],
    and wrapping twice is wrapping once. *)
Theorem wrap_modulo (x w : R) (n : Z) :
  0 < w ->
  exists k : Z,
    AnimationLoop.wrap x w = Some (x - IZR k * w) /\
    0 <= x - IZR k * w < w /\
    (forall k', 0 <= x - IZR k' * w < w -> k' = k) /\
    AnimationLoop.wrap (x + IZR n * w) w = AnimationLoop.wrap x w /\
    AnimationLoop.wrap (x - IZR k * w) w = Some (x - IZR k * w).
Proof.
  intros Hw.
  destruct (wrap_multiple x w Hw) as (k & Hk & Hr).
  exists k. split; [exact Hk |]. split; [exact Hr |]. split; [| split].
  - intros k' Hr'. exact (representative_unique x w k' k Hw Hr' Hr).
  - destruct (wrap_multiple (x + IZR n * w) w Hw) as (k2 & Hk2 & Hr2).
    rewrite Hk2, Hk. f_equal.
    assert (E : x + IZR n * w - IZR k2 * w = x - IZR (k2 - n) * w)
      by (rewrite minus_IZR; ring).
    rewrite E in Hr2 |- *.
    rewrite (representative_unique x w (k2 - n) k Hw Hr2 Hr). reflexivity.
  - apply wrap_fixed. exact Hr.
Qed.

Lemma wrap_modulo_witness :
  0 < 200 /\
  exists k : Z,
    AnimationLoop.wrap (-430) 200 = Some (-430 - IZR k * 200) /\
    AnimationLoop.wrap (-430 + IZR 7 * 200) 200 = AnimationLoop.wrap (-430) 200.
Proof.
  split; [lra |].
  destruct (wrap_modulo (-430) 200 7 ltac:(lra)) as (k & Hk & _ & _ & Hp & _).
  exists k. auto.
Defined.

End Modulo.

(** ** What one frame does to offset and velocity *)

Section OneFrame.

Import AnimationLoop.

(** The easing factor is a proportion. *)
Lemma easingFactor_proportion (dt : R) :
  0 <= dt -> 0 <= easingFactor dt < 1.
Proof.
  intros Hdt. destruct (easingFactor_bounds dt Hdt) as [Hlo _].
  split; [exact Hlo |]. unfold easingFactor.
  pose proof (exp_pos (- dt / ANIMATION_CONFIG.SMOOTH_TAU)). lra.
Qed.

(** A frame with a positive sequence width moves the offset by velocity
    times elapsed time, less a whole number of sequence widths, and sets the
    track's translation to the opposite of the new offset; when the moved
    offset is still inside [[0, seqWidth)] no width is taken off. *)
Theorem frame_advances (d : Deps) (t : R) (s : Loop) :
  0 < seqWidth d ->
  exists s' (k : Z),
    animate d t s = Some s' /\
    offsetRef s' =
      offsetRef s + velocityRef s' * deltaTime (lastTimestampRef s) t
      - IZR k * seqWidth d /\
    transform s' = Translate3d (- offsetRef s') /\
    (0 <= offsetRef s + velocityRef s' * deltaTime (lastTimestampRef s) t
       < seqWidth d -> k = 0%Z).
Proof.
  intros Hw.
  destruct (animate_moving d t s Hw) as (o & Ho & Hr & Ha).
  rewrite Ha. cbv zeta in Ho.
  set (x := offsetRef s
            + smooth d (deltaTime (lastTimestampRef s) t) (velocityRef s)
              * deltaTime (lastTimestampRef s) t) in *.
  destruct (wrap_multiple x (seqWidth d) Hw) as (k & Hk & Hrk).
  rewrite Hk in Ho. injection Ho as Ho.
  eexists _, k. split; [reflexivity |]. simpl. fold x.
  split; [symmetry; exact Ho |]. split; [reflexivity |].
  intros Hin. apply (representative_unique x (seqWidth d) k 0 Hw Hrk).
  simpl. replace (x - 0 * seqWidth d) with x by ring. exact Hin.
Qed.

Lemma frame_advances_witness :
  0 < 200 /\
  exists s' (k : Z),
    animate (mkDeps (-120) 200 false (Some 0)) 1016
            (mkLoop (Some 4%nat) (Some 1000) 1 (-120) (Translate3d (-1))
                    [] 5%nat 9%nat) = Some s' /\
    offsetRef s' = 1 + velocityRef s' * deltaTime (Some 1000) 1016
                   - IZR k * 200 /\
    transform s' = Translate3d (- offsetRef s').
Proof.
  split; [lra |].
  destruct (frame_advances (mkDeps (-120) 200 false (Some 0)) 1016
              (mkLoop (Some 4%nat) (Some 1000) 1 (-120) (Translate3d (-1))
                      [] 5%nat 9%nat))
    as (s' & k & Ha & Ho & Ht & _).
  { simpl. lra. }
  exists s', k. auto.
Defined.

Lemma smooth_distance (d : Deps) (dt v : R) :
  smooth d dt v - target d = (v - target d) * exp (- dt / 0.25).
Proof.
  unfold smooth, easingFactor, ANIMATION_CONFIG.SMOOTH_TAU. ring.
Qed.

Lemma smooth_between (d : Deps) (dt v : R) :
  0 <= dt ->
  Rmin v (target d) <= smooth d dt v <= Rmax v (target d).
Proof.
  intros Hdt. destruct (easingFactor_proportion dt Hdt) as [Hlo Hhi].
  unfold smooth. set (a := easingFactor dt) in *.
  unfold Rmin, Rmax. destruct (Rle_dec v (target d)); split; nra.
Qed.

(** A frame moves the velocity toward the target and not past it: the
    distance to the target shrinks by the factor [exp (- dt / 0.25)], and the
    new velocity lies between the old one and the target. *)
Theorem frame_approaches_target (d : Deps) (t : R) (s : Loop) :
  exists s',
    animate d t s = Some s' /\
    velocityRef s' - target d =
      (velocityRef s - target d)
      * exp (- deltaTime (lastTimestampRef s) t / 0.25) /\
    Rabs (velocityRef s' - target d) <= Rabs (velocityRef s - target d) /\
    Rmin (velocityRef s) (target d) <= velocityRef s'
      <= Rmax (velocityRef s) (target d).
Proof.
  destruct (animate_total d t s) as (s' & Ha & _ & Hv & _).
  exists s'. split; [exact Ha |]. rewrite Hv.
  set (dt := deltaTime (lastTimestampRef s) t).
  pose proof (deltaTime_nonneg (lastTimestampRef s) t) as Hdt. fold dt in Hdt.
  split; [apply smooth_distance |]. split; [| apply smooth_between, Hdt].
  rewrite smooth_distance, Rabs_mult.
  destruct (easingFactor_proportion dt Hdt) as [Hlo Hhi].
  unfold easingFactor, ANIMATION_CONFIG.SMOOTH_TAU in Hlo, Hhi.
  rewrite (Rabs_right (exp (- dt / 0.25))) by lra.
  pose proof (Rabs_pos (velocityRef s - target d)). nra.
Qed.

End OneFrame.

(** ** Velocity over many frames *)

Section Approach.

Import AnimationLoop Timeline.

Lemma frames_approach (d : Deps) :
  forall ts s h l,
    pending s = [(h, d)] -> lastTimestampRef s = Some l -> ascending l ts ->
    exists s',
      frames ts s = Some s' /\
      velocityRef s' - target d =
        (velocityRef s - target d)
        * exp (- elapsed l ts / ANIMATION_CONFIG.SMOOTH_TAU).
Proof.
  intros ts. induction ts as [| t ts IH]; intros s h l Hp Hl Hasc.
  - exists s. split; [reflexivity |]. unfold elapsed. simpl.
    replace (- ((l - l) / 1000) / ANIMATION_CONFIG.SMOOTH_TAU) with 0
      by (unfold ANIMATION_CONFIG.SMOOTH_TAU; lra).
    rewrite exp_0. ring.
  - destruct Hasc as [Hlt Hasc]. simpl frames.
    rewrite (frame_single d t s h Hp).
    match goal with |- context [animate d t ?y] =>
      destruct (animate_total d t y) as (s1 & -> & Hl1 & Hv1 & Hp1 & _) end.
    simpl in Hl1, Hv1, Hp1.
    destruct (IH s1 (nextHandle s) t Hp1 Hl1 Hasc) as (s' & Hf & Hv').
    exists s'. split; [exact Hf |].
    rewrite Hv', Hv1, smooth_distance, Hl, (deltaTime_forward l t Hlt).
    rewrite Rmult_assoc, <- exp_plus.
    f_equal. f_equal. unfold elapsed. rewrite last_cons.
    unfold ANIMATION_CONFIG.SMOOTH_TAU. lra.
Qed.

(** Whatever the target of the running effect, after the loop has started
    from a state without stored timestamp, frames at ascending timestamps
    bring the velocity toward the target exponentially: its distance to the
    target is the distance at the start times [exp (- t / 0.25)], [t] the
    seconds since the first frame.  This is also how the marquee speeds up
    from rest after mount. *)
Theorem velocity_approaches_target (d : Deps) (s : Loop) (t0 : R)
        (ts : list R) :
  lastTimestampRef s = None -> pending s = [] -> ascending t0 ts ->
  exists s1 s',
    effect true false d s = Some (s1, AnimatingCleanup) /\
    frames (t0 :: ts) s1 = Some s' /\
    velocityRef s' - target d =
      (velocityRef s - target d) * exp (- elapsed t0 ts / 0.25).
Proof.
  intros Hl Hp Hasc.
  destruct (effect_animating d s) as (o & tr & _ & He).
  rewrite He.
  match type of He with _ = Some (?y, _) => set (s1 := y) end.
  assert (Hp1 : pending s1 = [(nextHandle s, d)])
    by (unfold s1; simpl; rewrite Hp; reflexivity).
  destruct (animate_total d t0
              (mkLoop (rafRef s1) (lastTimestampRef s1) (offsetRef s1)
                      (velocityRef s1) (transform s1) [] (nextHandle s1)
                      (framesRun s1)))
    as (s2 & Ha & Hl2 & Hv2 & Hp2 & _).
  simpl in Hl2, Hv2, Hp2.
  destruct (frames_approach d ts s2 _ t0 Hp2 Hl2 Hasc) as (s' & Hf & Hv').
  exists s1, s'. split; [reflexivity |]. split.
  - simpl frames. rewrite (frame_single d t0 s1 _ Hp1), Ha. exact Hf.
  - rewrite Hv', Hv2, Hl, deltaTime_first.
    unfold smooth. rewrite easingFactor_zero.
    unfold ANIMATION_CONFIG.SMOOTH_TAU. f_equal. ring.
Qed.

Lemma velocity_approaches_target_witness :
  exists s1 s',
    effect true false (mkDeps 120 200 false (Some 0)) initial
      = Some (s1, AnimatingCleanup) /\
    frames [0; 250; 500] s1 = Some s' /\
    velocityRef s' - 120 = (0 - 120) * exp (- elapsed 0 [250; 500] / 0.25).
Proof.
  destruct (velocity_approaches_target (mkDeps 120 200 false (Some 0))
              initial 0 [250; 500] eq_refl eq_refl) as (s1 & s' & H).
  - simpl. lra.
  - exists s1, s'. exact H.
Defined.

End Approach.

(** ** The mounted component, event by event *)

Section MountedLoop.

Import Invariant.

(** A render keeps the velocity and runs no frame callback, whether or not
    the effect runs again. *)
Lemma rerender_keeps (pref : bool) (p : LL.Props) (st : LL.State)
      (m m' : LL.Mounted) :
  holds m ->
  LL.rerender pref p st m = Some m' ->
  AL.velocityRef (LL.loop m') = AL.velocityRef (LL.loop m) /\
  AL.framesRun (LL.loop m') = AL.framesRun (LL.loop m).
Proof.
  intros H Hre.
  destruct (LL.deps_eq_dec (LL.deps m) (LL.loopDeps p st)) as [E | NE].
  - unfold LL.rerender in Hre.
    destruct (LL.deps_eq_dec (LL.deps m) (LL.loopDeps p st)) as [_ | NE];
      [| contradiction].
    injection Hre as <-. auto.
  - destruct (rerender_changed pref p st m H NE) as (o & tr & _ & Hre').
    rewrite Hre in Hre'. injection Hre' as ->.
    destruct pref; auto.
Qed.

Lemma step_keeps (pref : bool) (e : LL.Event) (m m' : LL.Mounted) :
  holds m ->
  (forall t, e <> LL.Frame t) ->
  LL.step pref e m = Some m' ->
  AL.velocityRef (LL.loop m') = AL.velocityRef (LL.loop m) /\
  AL.framesRun (LL.loop m') = AL.framesRun (LL.loop m).
Proof.
  intros H Hnf. destruct e as [| | p | cw rw | t]; simpl.
  - apply rerender_keeps, H.
  - apply rerender_keeps, H.
  - apply rerender_keeps, H.
  - destruct (LL.updateDimensions cw rw (LL.state m)); [| discriminate].
    apply rerender_keeps, H.
  - exfalso. exact (Hnf t eq_refl).
Qed.

(** What a frame does to a mounted component. *)
Lemma step_frame (pref : bool) (t : R) (m m' : LL.Mounted) :
  holds m ->
  LL.step pref (LL.Frame t) m = Some m' ->
  LL.props m' = LL.props m /\ LL.state m' = LL.state m /\
  LL.deps m' = LL.deps m /\ LL.onCleanup m' = LL.onCleanup m /\
  ((LL.onCleanup m = AL.ReducedCleanup /\ LL.loop m' = LL.loop m) \/
   (LL.onCleanup m = AL.AnimatingCleanup /\
    AL.velocityRef (LL.loop m') =
      AL.smooth (LL.deps m)
                (AL.deltaTime (AL.lastTimestampRef (LL.loop m)) t)
                (AL.velocityRef (LL.loop m)) /\
    AL.framesRun (LL.loop m') = S (AL.framesRun (LL.loop m)) /\
    AL.lastTimestampRef (LL.loop m') = Some t)).
Proof.
  intros H Hs. pose proof (queue m H) as Hq. unfold scheduled in Hq.
  simpl in Hs.
  destruct (LL.onCleanup m) eqn:Ec; [contradiction | |].
  - destruct Hq as (_ & _ & Hp). unfold AL.frame in Hs. rewrite Hp in Hs.
    injection Hs as <-. simpl. repeat split; auto.
  - destruct Hq as (h & _ & Hp).
    rewrite (frame_single (LL.deps m) t (LL.loop m) h Hp) in Hs.
    match type of Hs with context [AL.animate ?d ?t ?y] =>
      destruct (animate_total d t y) as (s' & Ha & Hl & Hv & _ & _ & _ & Hf)
    end.
    rewrite Ha in Hs. injection Hs as <-. simpl in *.
    repeat split; auto.
Qed.

(** In every state of a mounted component the values the running effect
    closed over are those of the current props and state; the host's queue
    holds at most one frame callback, it is the one [rafRef] names, and its
    closure holds the current values; and a callback is scheduled exactly
    while the effect took the animating exit, so the loop neither stops by
    itself nor runs twice over. *)
Theorem one_callback_scheduled (m : LL.Mounted) :
  LL.reachable m ->
  LL.deps m = LL.loopDeps (LL.props m) (LL.state m) /\
  (List.length (AL.pending (LL.loop m)) <= 1)%nat /\
  (forall h d, In (h, d) (AL.pending (LL.loop m)) ->
               d = LL.deps m /\ AL.rafRef (LL.loop m) = Some h) /\
  (LL.onCleanup m = AL.AnimatingCleanup <-> AL.pending (LL.loop m) <> []).
Proof.
  intros Hr. pose proof (reachable_holds m Hr) as [Hd Hq _ _].
  split; [exact Hd |]. unfold scheduled in Hq.
  destruct (LL.onCleanup m); [contradiction | |].
  - destruct Hq as (_ & _ & Hp). rewrite Hp. simpl.
    split; [lia |]. split; [intros h d [] |].
    split; [discriminate | intros Hn; contradiction].
  - destruct Hq as (h & Hr' & Hp). rewrite Hp. simpl.
    split; [lia |]. split.
    + intros h' d [E | []]. injection E as <- <-. auto.
    + split; [discriminate | reflexivity].
Qed.

Lemma one_callback_scheduled_witness :
  exists m0 m1,
    LL.mount false (LL.mkProps 120 LL.left (Some 0)) = Some m0 /\
    LL.run [(false, LL.Frame 0); (false, LL.MouseEnter); (false, LL.Frame 16)]
           m0 = Some m1 /\
    (List.length (AL.pending (LL.loop m1)) <= 1)%nat /\
    LL.deps m1 = LL.loopDeps (LL.props m1) (LL.state m1).
Proof.
  destruct (mount_holds false (LL.mkProps 120 LL.left (Some 0)))
    as (m0 & Hm0 & H0 & _).
  pose proof (LL.reach_mount _ _ _ Hm0) as R0.
  destruct (step_holds false (LL.Frame 0) m0 H0) as (ma & Ha & HHa).
  pose proof (LL.reach_step _ _ _ _ R0 Ha) as Ra.
  destruct (step_holds false LL.MouseEnter ma HHa) as (mb & Hb & HHb).
  pose proof (LL.reach_step _ _ _ _ Ra Hb) as Rb.
  destruct (step_holds false (LL.Frame 16) mb HHb) as (m1 & Hc & _).
  pose proof (LL.reach_step _ _ _ _ Rb Hc) as R1.
  destruct (one_callback_scheduled m1 R1) as (Hd & Hl & _).
  exists m0, m1.
  rewrite (run_step _ _ _ _ _ Ha), (run_step _ _ _ _ _ Hb),
    (run_step _ _ _ _ _ Hc).
  simpl. auto.
Defined.

(** Frames of a state that satisfies the invariant, one callback each. *)
Lemma frames_counted (ts : list R) :
  forall m, holds m ->
    exists m',
      LL.run (Script.frameEvents ts) m = Some m' /\
      LL.onCleanup m' = LL.onCleanup m /\
      (LL.onCleanup m = AL.ReducedCleanup -> LL.loop m' = LL.loop m) /\
      (LL.onCleanup m = AL.AnimatingCleanup ->
       AL.framesRun (LL.loop m')
         = (AL.framesRun (LL.loop m) + List.length ts)%nat /\
       AL.lastTimestampRef (LL.loop m')
         = match ts with
           | [] => AL.lastTimestampRef (LL.loop m)
           | t :: ts' => Some (last ts' t)
           end).
Proof.
  induction ts as [| t ts IH]; intros m H.
  - exists m. simpl. repeat split; auto.
  - destruct (step_holds false (LL.Frame t) m H) as (m1 & Hs & H1).
    destruct (step_frame false t m m1 H Hs) as (_ & _ & _ & Hc & Hcases).
    destruct (IH m1 H1) as (m' & Hrun & Hc' & Hred & Hani).
    exists m'. unfold Script.frameEvents. simpl map.
    rewrite (run_step _ _ _ _ _ Hs). fold (Script.frameEvents ts).
    split; [exact Hrun |]. split; [congruence |]. split.
    + intros Er. destruct Hcases as [[_ El] | [Ea _]]; [| congruence].
      rewrite Hred by congruence. exact El.
    + intros Ea. destruct Hcases as [[Er _] | (_ & _ & Hf & Hl)];
        [congruence |].
      destruct (Hani ltac:(congruence)) as [Hf' Hl'].
      split; [rewrite Hf', Hf; simpl; lia |].
      rewrite Hl'. destruct ts as [| r ts]; [exact Hl |].
      rewrite (last_cons r ts t). reflexivity.
Qed.

(** While the loop animates, every frame the host renders runs exactly one
    frame callback, and the stored timestamp is that of the last frame;
    after the reduced-motion exit frames change nothing at all. *)
Theorem one_callback_per_frame (m : LL.Mounted) (t : R) (ts : list R) :
  LL.reachable m ->
  exists m',
    LL.run (Script.frameEvents (t :: ts)) m = Some m' /\
    (LL.onCleanup m = AL.AnimatingCleanup ->
     AL.framesRun (LL.loop m')
       = (AL.framesRun (LL.loop m) + S (List.length ts))%nat /\
     AL.lastTimestampRef (LL.loop m') = Some (last ts t)) /\
    (LL.onCleanup m = AL.ReducedCleanup -> LL.loop m' = LL.loop m).
Proof.
  intros Hr.
  destruct (frames_counted (t :: ts) m (reachable_holds m Hr))
    as (m' & Hrun & _ & Hred & Hani).
  exists m'. split; [exact Hrun |]. split; [exact Hani | exact Hred].
Qed.

Lemma one_callback_per_frame_witness :
  exists m0 m1,
    LL.mount false (LL.mkProps 120 LL.left None) = Some m0 /\
    LL.run (Script.frameEvents [0; 16; 16; 40]) m0 = Some m1 /\
    AL.framesRun (LL.loop m1) = 4%nat /\
    AL.lastTimestampRef (LL.loop m1) = Some 40.
Proof.
  destruct (mount_holds false (LL.mkProps 120 LL.left None))
    as (m0 & Hm0 & _).
  pose proof Hm0 as Em0. rewrite (mount_animating _) in Em0.
  injection Em0 as Em0.
  destruct (one_callback_per_frame m0 0 [16; 16; 40]
              (LL.reach_mount _ _ _ Hm0)) as (m1 & Hrun & Hani & _).
  destruct Hani as [Hf Hl]; [rewrite <- Em0; reflexivity |].
  exists m0, m1. split; [exact Hm0 |]. split; [exact Hrun |].
  rewrite Hf, Hl, <- Em0. simpl. auto.
Defined.

End MountedLoop.

(** ** Bounds that hold over a whole mount *)

Section MountedBounds.

Import Invariant Bounds.

Lemma targetVelocity_abs (p : LL.Props) :
  Rabs (LL.targetVelocity p) = Rabs (LL.speed p).
Proof.
  rewrite targetVelocity_signed.
  destruct (LL.direction p); [reflexivity | apply Rabs_Ropp].
Qed.

Lemma target_within (M : R) (p : LL.Props) (st : LL.State) :
  within M p -> Rabs (AL.target (LL.loopDeps p st)) <= M.
Proof.
  intros [Hs Hh]. rewrite frame_target.
  destruct (LL.isHovered st); [exact Hh |].
  rewrite targetVelocity_abs. exact Hs.
Qed.

Lemma between_abs (M v T x : R) :
  Rabs v <= M -> Rabs T <= M -> Rmin v T <= x <= Rmax v T -> Rabs x <= M.
Proof.
  unfold Rmin, Rmax, Rabs.
  destruct (Rcase_abs v), (Rcase_abs T), (Rcase_abs x), (Rle_dec v T);
    intros Hv HT [Hlo Hhi]; lra.
Qed.

Lemma step_within (M : R) (pref : bool) (e : LL.Event) (m m' : LL.Mounted) :
  holds m ->
  within M (LL.props m) ->
  match e with LL.SetProps p => within M p | _ => True end ->
  Rabs (AL.velocityRef (LL.loop m)) <= M ->
  LL.step pref e m = Some m' ->
  within M (LL.props m') /\ Rabs (AL.velocityRef (LL.loop m')) <= M.
Proof.
  intros H Hp He Hv Hs.
  destruct (step_props_state pref e m m' Hs) as [Ep _].
  split.
  - rewrite Ep. destruct e; assumption.
  - destruct e as [| | p | cw rw | t];
      try (match type of Hs with LL.step _ ?ev _ = _ =>
             destruct (step_keeps pref ev m m' H
                         ltac:(intros; discriminate) Hs) as [-> _]
           end; exact Hv).
    destruct (step_frame pref t m m' H Hs)
      as (_ & _ & _ & _ & [[_ ->] | (_ & -> & _)]); [exact Hv |].
    apply (between_abs M (AL.velocityRef (LL.loop m))
                       (AL.target (LL.deps m))).
    + exact Hv.
    + rewrite (deps_current m H). apply target_within, Hp.
    + apply smooth_between, deltaTime_nonneg.
Qed.

(** The marquee never scrolls faster than it was told to: if the speed and
    the hover speed of every props the component gets during a mount are at
    most [M] in absolute value, so is the smoothed velocity in every state of
    that mount, whatever the events and the frame timestamps. *)
Theorem velocity_never_exceeds (M : R) (pref : bool) (p : LL.Props)
        (es : list (bool * LL.Event)) :
  within M p -> allWithin M es ->
  exists m m',
    LL.mount pref p = Some m /\
    LL.run es m = Some m' /\
    Rabs (AL.velocityRef (LL.loop m')) <= M.
Proof.
  intros Hp Hes.
  destruct (mount_holds pref p) as (m & Hm & H & Ep & _).
  assert (Hv : Rabs (AL.velocityRef (LL.loop m)) <= M).
  { assert (E0 : AL.velocityRef (LL.loop m) = 0).
    { pose proof Hm as Hm'. destruct pref.
      - rewrite (mount_reduced p) in Hm'. injection Hm' as <-. reflexivity.
      - rewrite (mount_animating p) in Hm'. injection Hm' as <-. reflexivity. }
    rewrite E0, Rabs_R0. destruct Hp as [Hs _].
    pose proof (Rabs_pos (LL.speed p)). lra. }
  exists m.
  assert (Hrun : exists m', LL.run es m = Some m' /\
                            Rabs (AL.velocityRef (LL.loop m')) <= M).
  { rewrite <- Ep in Hp. clear Hm Ep.
    revert m H Hp Hv. unfold allWithin in Hes.
    induction Hes as [| [pr e] es He _ IH]; intros m H Hp Hv.
    - exists m. auto.
    - destruct (step_holds pr e m H) as (m1 & Hs & H1).
      destruct (step_within M pr e m m1 H Hp He Hv Hs) as [Hp1 Hv1].
      rewrite (run_step _ _ _ _ _ Hs). exact (IH m1 H1 Hp1 Hv1). }
  destruct Hrun as (m' & Hrun & Hv'). exists m'. auto.
Qed.

Lemma velocity_never_exceeds_witness :
  exists m m',
    LL.mount false (LL.mkProps (-120) LL.right (Some 30)) = Some m /\
    LL.run [(false, LL.Measure (Some 800%N) (Some 300)); (false, LL.Frame 0);
            (false, LL.Frame 700); (false, LL.MouseEnter);
            (false, LL.SetProps (LL.mkProps 90 LL.left None));
            (false, LL.Frame 20000)] m = Some m' /\
    Rabs (AL.velocityRef (LL.loop m')) <= 120.
Proof.
  apply velocity_never_exceeds.
  - split.
    + change (Rabs (-120) <= 120). rewrite Rabs_left; lra.
    + change (Rabs 30 <= 120). rewrite Rabs_right; lra.
  - unfold allWithin.
    repeat (apply Forall_cons; [cbn [snd] |]); try apply Forall_nil;
      try exact I.
    split.
    + change (Rabs 90 <= 120). rewrite Rabs_right; lra.
    + change (Rabs 0 <= 120). rewrite Rabs_R0; lra.
Defined.

Lemma step_neverHover (pref : bool) (e : LL.Event) (m m' : LL.Mounted) :
  LL.hoverSpeed (LL.props m) = None ->
  LL.isHovered (LL.state m) = false ->
  match e with LL.SetProps p => LL.hoverSpeed p = None | _ => True end ->
  LL.step pref e m = Some m' ->
  LL.hoverSpeed (LL.props m') = None /\
  LL.isHovered (LL.state m') = false.
Proof.
  intros Hh Hi He Hs.
  destruct (step_props_state pref e m m' Hs) as [Ep Es].
  destruct e as [| | p | cw rw | t]; rewrite Ep.
  - rewrite Es. unfold LL.handleMouseEnter. rewrite Hh. auto.
  - rewrite Es. unfold LL.handleMouseLeave. rewrite Hh. auto.
  - rewrite Es. auto.
  - split; [exact Hh |].
    destruct (updateDimensions_total cw rw (LL.state m))
      as (st & Hu & Hk & _).
    rewrite Hu in Es. injection Es as <-. rewrite Hk. exact Hi.
  - rewrite Es. auto.
Qed.

(** Without a configured hover speed the pointer has no effect: in a mount
    in which no props carry a [hoverSpeed], the hover flag is never set, and
    the target of every frame is the base target velocity. *)
Theorem no_hover_without_hoverSpeed (pref : bool) (p : LL.Props)
        (es : list (bool * LL.Event)) (m m' : LL.Mounted) :
  LL.hoverSpeed p = None -> neverHover es ->
  LL.mount pref p = Some m -> LL.run es m = Some m' ->
  LL.isHovered (LL.state m') = false /\
  AL.target (LL.deps m') = LL.targetVelocity (LL.props m').
Proof.
  intros Hp Hes Hm Hrun.
  destruct (mount_holds pref p) as (m0 & Hm0 & H & Ep & Es).
  rewrite Hm in Hm0. injection Hm0 as <-.
  assert (Hh : LL.hoverSpeed (LL.props m) = None) by (rewrite Ep; exact Hp).
  assert (Hi : LL.isHovered (LL.state m) = false)
    by (rewrite Es; reflexivity).
  clear Hm Ep Es Hp. revert m H Hh Hi Hrun. unfold neverHover in Hes.
  induction Hes as [| [pr e] es He _ IH]; intros m H Hh Hi Hrun.
  - simpl in Hrun. injection Hrun as <-. split; [exact Hi |].
    rewrite (deps_current m H), frame_target, Hi. reflexivity.
  - destruct (step_holds pr e m H) as (m1 & Hs & H1).
    rewrite (run_step _ _ _ _ _ Hs) in Hrun.
    destruct (step_neverHover pr e m m1 Hh Hi He Hs) as [Hh1 Hi1].
    exact (IH m1 H1 Hh1 Hi1 Hrun).
Qed.

Lemma no_hover_without_hoverSpeed_witness :
  exists m m',
    LL.mount false (LL.mkProps 120 LL.left None) = Some m /\
    LL.run [(false, LL.MouseEnter); (false, LL.Frame 0);
            (false, LL.SetProps (LL.mkProps 60 LL.right None));
            (false, LL.MouseLeave); (false, LL.MouseEnter)] m = Some m' /\
    LL.isHovered (LL.state m') = false /\
    AL.target (LL.deps m') = LL.targetVelocity (LL.props m').
Proof.
  destruct (mount_holds false (LL.mkProps 120 LL.left None))
    as (m & Hm & H & _).
  destruct (run_holds [(false, LL.MouseEnter); (false, LL.Frame 0);
                       (false, LL.SetProps (LL.mkProps 60 LL.right None));
                       (false, LL.MouseLeave); (false, LL.MouseEnter)] m H)
    as (m' & Hrun & _).
  exists m, m'. split; [exact Hm |]. split; [exact Hrun |].
  refine (no_hover_without_hoverSpeed false (LL.mkProps 120 LL.left None)
            _ m m' eq_refl _ Hm Hrun).
  unfold Bounds.neverHover.
  repeat (apply Forall_cons; [cbn [snd] |]); try apply Forall_nil;
    try exact I.
  reflexivity.
Defined.

End MountedBounds.

(** ** The layout sizer over a mount *)

Section Layout.

Import Invariant.

Lemma updateDimensions_again (cw : option N) (rw : option R)
      (st st' : LL.State) :
  LL.updateDimensions cw rw st = Some st' ->
  LL.updateDimensions cw rw st' = Some st'.
Proof.
  destruct rw as [w |].
  - destruct (Rlt_dec 0 w) as [Hw | Hw].
    + rewrite !(updateDimensions_positive cw w _ Hw).
      intros [= <-]. reflexivity.
    + unfold LL.updateDimensions.
      destruct (Rlt_dec 0 w) as [P | _]; [contradiction | reflexivity].
  - unfold LL.updateDimensions.
    destruct (Rlt_dec 0 0) as [P | _]; [lra | reflexivity].
Qed.

(** Measuring again what was just measured changes nothing: the state is
    the same, the effect is not cleaned up, the scheduled callback stays.  So
    the chain measurement, render, effect, measurement comes to rest after
    one round. *)
Theorem measurement_settles (pref pref' : bool) (cw : option N)
        (rw : option R) (m m1 : LL.Mounted) :
  LL.reachable m ->
  LL.step pref (LL.Measure cw rw) m = Some m1 ->
  LL.step pref' (LL.Measure cw rw) m1 = Some m1.
Proof.
  intros Hr Hs.
  pose proof (step_deterministic_holds pref _ m m1 (reachable_holds m Hr) Hs)
    as H1.
  destruct (step_props_state _ _ _ _ Hs) as [_ Hu].
  apply updateDimensions_again in Hu.
  unfold LL.step. rewrite Hu. unfold LL.rerender.
  destruct (LL.deps_eq_dec (LL.deps m1)
              (LL.loopDeps (LL.props m1) (LL.state m1))) as [_ | NE].
  - destruct m1; reflexivity.
  - exfalso. apply NE. exact (deps_current m1 H1).
Qed.

Lemma measurement_settles_witness :
  exists m0 m1,
    LL.mount false (LL.mkProps 120 LL.left None) = Some m0 /\
    LL.step false (LL.Measure (Some 250%N) (Some 200)) m0 = Some m1 /\
    LL.step false (LL.Measure (Some 250%N) (Some 200)) m1 = Some m1.
Proof.
  destruct (mount_holds false (LL.mkProps 120 LL.left None))
    as (m0 & Hm0 & H0 & _).
  destruct (step_holds false (LL.Measure (Some 250%N) (Some 200)) m0 H0)
    as (m1 & Hm1 & _).
  exists m0, m1. split; [exact Hm0 |]. split; [exact Hm1 |].
  exact (measurement_settles false false _ _ m0 m1
           (LL.reach_mount _ _ _ Hm0) Hm1).
Defined.



(** The stored sequence width is a whole number of pixels, and once it is
    positive it stays positive: a later measurement that finds no width (an
    emptied or detached sequence) leaves the last width in place, so the
    motion is not frozen again. *)
Theorem width_stays_positive (m : LL.Mounted) :
  LL.reachable m ->
  (exists z : Z, (0 <= z)%Z /\ LL.seqWidth (LL.state m) = IZR z) /\
  (forall es m',
      LL.run es m = Some m' ->
      0 < LL.seqWidth (LL.state m) -> 0 < LL.seqWidth (LL.state m')).
Proof.
  intros Hr. split.
  - pose proof (reachable_measured m Hr) as Hm. unfold measured in Hm.
    destruct (Rlt_dec 0 (LL.seqWidth (LL.state m))) as [P | N].
    + destruct Hm as (cw & w & Hw & Hs & _).
      exists (Zceil w). split; [| exact Hs].
      pose proof (Zceil_bound w) as [_ Hb].
      apply le_IZR. lra.
    + destruct Hm as [E _]. exists 0%Z. split; [lia | exact E].
  - clear Hr. intros es. revert m.
    induction es as [| [pref e] es IH]; intros m m' Hrun Hpos.
    + simpl in Hrun. injection Hrun as <-. exact Hpos.
    + change (LL.run ((pref, e) :: es) m)
        with (match LL.step pref e m with
              | Some m1 => LL.run es m1
              | None => None
              end) in Hrun.
      destruct (LL.step pref e m) as [m1 |] eqn:Hs; [| discriminate].
      apply (IH m1 m' Hrun).
      destruct (step_props_state pref e m m1 Hs) as [_ Es].
      destruct e as [| | p | cw rw | t].
      * rewrite Es. unfold LL.handleMouseEnter.
        destruct (LL.hoverSpeed (LL.props m)); exact Hpos.
      * rewrite Es. unfold LL.handleMouseLeave.
        destruct (LL.hoverSpeed (LL.props m)); exact Hpos.
      * rewrite Es. exact Hpos.
      * destruct (updateDimensions_total cw rw (LL.state m))
          as (st & Hu & _ & _ & Hcase).
        rewrite Hu in Es. injection Es as <-.
        destruct Hcase as [-> | Hw]; assumption.
      * rewrite Es. exact Hpos.
Qed.

Lemma width_stays_positive_witness :
  exists m0 m1 m2,
    LL.mount false (LL.mkProps 120 LL.left None) = Some m0 /\
    LL.step false (LL.Measure (Some 250%N) (Some 200)) m0 = Some m1 /\
    LL.run [(false, LL.Frame 0); (false, LL.Measure (Some 250%N) (Some 0));
            (false, LL.Measure None None)] m1 = Some m2 /\
    0 < LL.seqWidth (LL.state m2).
Proof.
  destruct (mount_holds false (LL.mkProps 120 LL.left None))
    as (m0 & Hm0 & H0 & _ & Hs0).
  destruct (step_holds false (LL.Measure (Some 250%N) (Some 200)) m0 H0)
    as (m1 & Hm1 & H1).
  pose proof (LL.reach_step _ _ _ _ (LL.reach_mount _ _ _ Hm0) Hm1) as R1.
  destruct (run_holds [(false, LL.Frame 0);
                       (false, LL.Measure (Some 250%N) (Some 0));
                       (false, LL.Measure None None)] m1 H1)
    as (m2 & Hrun & _).
  assert (Hw : 0 < LL.seqWidth (LL.state m1)).
  { destruct (step_props_state _ _ _ _ Hm1) as [_ Es1]. simpl in Es1.
    rewrite Hs0 in Es1.
    rewrite (updateDimensions_positive (Some 250%N) 200 LL.initialState)
      in Es1 by lra.
    injection Es1 as <-. simpl. pose proof (Zceil_bound 200). lra. }
  destruct (width_stays_positive m1 R1) as [_ Hkeep].
  exists m0, m1, m2. repeat split; auto.
  exact (Hkeep _ m2 Hrun Hw).
Defined.

End Layout.

(** ** cx *)

Section ClassStrings.

Import ClassNames.
Local Open Scope string_scope.

Lemma append_associative (a b c : string) : (a ++ b) ++ c = a ++ (b ++ c).
Proof. induction a as [| ch a IH]; simpl; [reflexivity | rewrite IH; reflexivity]. Qed.

Lemma kept_app (a b : list (option string)) : kept (a ++ b)%list = (kept a ++ kept b)%list.
Proof. unfold kept. apply flat_map_app. Qed.

Lemma kept_nonempty (parts : list (option string)) (s : string) :
  In s (kept parts) -> s <> "".
Proof.
  unfold kept. rewrite in_flat_map. intros ([x |] & _ & Hin); [| destruct Hin].
  destruct (String.eqb_spec x ""); [destruct Hin |].
  destruct Hin as [<- | []]. assumption.
Qed.

Lemma concat_nonempty (sep : string) (l : list string) :
  l <> [] -> (forall s, In s l -> s <> "") -> String.concat sep l <> "".
Proof.
  destruct l as [| x l]; [congruence |]. intros _ Hall.
  assert (Hx : x <> "") by (apply Hall; left; reflexivity).
  destruct x as [| ch x]; [congruence |].
  destruct l; simpl; discriminate.
Qed.

Lemma concat_app (sep : string) (a b : list string) :
  a <> [] -> b <> [] ->
  String.concat sep (a ++ b)%list
    = String.concat sep a ++ sep ++ String.concat sep b.
Proof.
  intros Ha Hb. induction a as [| x a IH]; [congruence |].
  destruct a as [| y a].
  - destruct b; [congruence | reflexivity].
  - change (String.concat sep ((x :: y :: a) ++ b)%list)
      with (x ++ sep ++ String.concat sep ((y :: a) ++ b)%list).
    rewrite IH by discriminate.
    change (String.concat sep (x :: y :: a))
      with (x ++ sep ++ String.concat sep (y :: a)).
    rewrite !append_associative. reflexivity.
Qed.

Lemma cx_empty_iff (parts : list (option string)) :
  cx parts = "" <-> kept parts = [].
Proof.
  unfold cx. split.
  - intros E. destruct (kept parts) eqn:Ek; [reflexivity |]. exfalso.
    apply (concat_nonempty " " (kept parts)).
    + rewrite Ek. discriminate.
    + apply kept_nonempty.
    + rewrite Ek. exact E.
  - intros ->. reflexivity.
Qed.

(** [cx] drops every part that is [false], [null], [undefined] or the empty
    string, wherever it stands, and is empty exactly when nothing else was
    passed; the class string of two lists of parts is the [cx] of their
    class strings, so calls of [cx] can be nested freely. *)
Theorem cx_composes (a b : list (option string)) :
  cx (a ++ None :: b)%list = cx (a ++ b)%list /\
  cx (a ++ Some "" :: b)%list = cx (a ++ b)%list /\
  (cx a = "" <-> forall p, In p a -> ItemRenderer.truthy p = false) /\
  cx (a ++ b)%list = cx [Some (cx a); Some (cx b)].
Proof.
  split; [| split; [| split]].
  - unfold cx. rewrite !kept_app. reflexivity.
  - unfold cx. rewrite !kept_app. reflexivity.
  - rewrite cx_empty_iff. unfold kept. split.
    + intros E [s |] Hin; [| reflexivity]. simpl.
      destruct (String.eqb_spec s "") as [_ | NE]; [reflexivity |].
      exfalso. assert (Hs : In s (flat_map
                 (fun p => match p with
                           | Some s => if String.eqb s "" then [] else [s]
                           | None => []
                           end) a)).
      { apply in_flat_map. exists (Some s). split; [exact Hin |].
        destruct (String.eqb_spec s ""); [contradiction | left; reflexivity]. }
      rewrite E in Hs. destruct Hs.
    + intros Hall. induction a as [| p a IH]; [reflexivity |].
      simpl. rewrite IH by (intros q Hq; apply Hall; right; exact Hq).
      specialize (Hall p (or_introl eq_refl)).
      destruct p as [s |]; [| reflexivity]. simpl in Hall.
      destruct (String.eqb s ""); [reflexivity | discriminate].
  - destruct (kept a) as [| x ka] eqn:Ea.
    + assert (Hca : cx a = "") by (apply cx_empty_iff; exact Ea).
      unfold cx at 1 2. rewrite kept_app, Ea, Hca. simpl.
      destruct (String.eqb_spec (cx b) "") as [E | _]; [| reflexivity].
      simpl. exact E.
    + assert (Hca : cx a <> "")
        by (rewrite cx_empty_iff, Ea; discriminate).
      destruct (kept b) as [| y kb] eqn:Eb.
      * assert (Hcb : cx b = "") by (apply cx_empty_iff; exact Eb).
        unfold cx at 1 2. rewrite kept_app, Ea, Eb, Hcb, app_nil_r. simpl.
        destruct (String.eqb_spec (cx a) ""); [contradiction |].
        simpl. unfold cx. rewrite Ea. reflexivity.
      * assert (Hcb : cx b <> "")
          by (rewrite cx_empty_iff, Eb; discriminate).
        unfold cx at 1 2. rewrite kept_app. simpl.
        destruct (String.eqb_spec (cx a) ""); [contradiction |].
        destruct (String.eqb_spec (cx b) ""); [contradiction |].
        simpl. rewrite concat_app by (rewrite ?Ea, ?Eb; discriminate).
        reflexivity.
Qed.

Lemma cx_composes_witness :
  cx ([Some "flex"; None] ++ [Some ""; Some "w-max"])%list = "flex w-max" /\
  cx [None; Some ""] = "".
Proof.
  destruct (cx_composes [Some "flex"; None] [Some ""; Some "w-max"])
    as (_ & _ & _ & Hflat).
  destruct (cx_composes [None; Some ""] []) as (_ & _ & [_ Hempty] & _).
  split.
  - rewrite Hflat. reflexivity.
  - apply Hempty. intros p [<- | [<- | []]]; reflexivity.
Defined.

(** The root's class string: the optional parts leave no trace when they
    are absent. *)
Example rootClasses_plain :
  rootClasses false None
  = "relative group overflow-x-hidden [--logoloop-gap:32px] [--logoloop-logoHeight:28px] [--logoloop-fadeColorAuto:#ffffff] dark:[--logoloop-fadeColorAuto:#0b0b0b]".
Proof. reflexivity. Qed.

End ClassStrings.

(** ** The resize effect, render after render *)

Section ResizeLifecycle.

Import Invariant ResizeRenders.

Lemma cleanup_fresh (c : RO.Cleanup) (h : RO.Host) :
  fresh h -> fresh (RO.cleanup c h).
Proof.
  intros [Ho Hl]. destruct c; simpl; [split; assumption | |].
  - split; simpl; [exact Ho |].
    intros l Hin. apply filter_In in Hin. apply Hl, Hin.
  - split; simpl; [| exact Hl].
    intros o Hin. apply filter_In in Hin. apply Ho, Hin.
Qed.

Lemma cleanup_counters (c : RO.Cleanup) (h : RO.Host) :
  RO.nextId (RO.cleanup c h) = RO.nextId h /\
  RO.callbackCalls (RO.cleanup c h) = RO.callbackCalls h.
Proof. destruct c; simpl; auto. Qed.

(** What the observers of one run are. *)
Lemma observe_fold_live (elements : list (option nat)) :
  forall (h : RO.Host) (ids : list nat),
    fresh h ->
    exists h' ids',
      fold_left RO.observe elements (h, ids) = (h', ids') /\
      fresh h' /\
      map snd (RO.observers h')
        = map snd (RO.observers h) ++ present elements /\
      RO.windowListeners h' = RO.windowListeners h /\
      RO.callbackCalls h' = RO.callbackCalls h.
Proof.
  induction elements as [| ref els IH]; intros h ids Hf.
  - exists h, ids. simpl. rewrite app_nil_r. auto.
  - simpl fold_left. destruct ref as [el |]; simpl RO.observe.
    + match goal with |- context [fold_left RO.observe els (?x, ?y)] =>
        destruct (IH x y) as (h' & ids' & Hfold & Hf' & Ho & Hw & Hc) end.
      { destruct Hf as [Hfo Hfl]. split; simpl.
        - intros o Ho. apply in_app_or in Ho. destruct Ho as [Ho | [<- | []]].
          + specialize (Hfo o Ho). lia.
          + simpl. lia.
        - intros l Hl. specialize (Hfl l Hl). lia. }
      exists h', ids'. split; [exact Hfold |]. split; [exact Hf' |].
      simpl in Ho, Hw, Hc. rewrite Ho, map_app. simpl.
      rewrite <- app_assoc. auto.
    + destruct (IH h ids Hf) as (h' & ids' & Hfold & Hf' & Ho & Hw & Hc).
      exists h', ids'. auto.
Qed.

(** One run of the effect on a host on which this hook has nothing
    registered. *)
Lemma effect_live (env : RO.Env) (elements : list (option nat)) (h : RO.Host) :
  fresh h -> RO.observers h = [] -> RO.windowListeners h = [] ->
  fresh (fst (RO.effect env elements h)) /\
  map snd (RO.observers (fst (RO.effect env elements h)))
    = match env with
      | RO.WithResizeObserver => present elements
      | _ => []
      end /\
  List.length (RO.windowListeners (fst (RO.effect env elements h)))
    = match env with RO.WindowOnly => 1%nat | _ => 0%nat end /\
  RO.callbackCalls (fst (RO.effect env elements h))
    = (RO.callbackCalls h
       + match env with RO.NoWindow => 0 | _ => 1 end)%nat.
Proof.
  intros Hf Ho Hl. destruct env; simpl.
  - split; [exact Hf |]. rewrite Ho, Hl. simpl. repeat split; lia.
  - split.
    { split; simpl; [rewrite Ho; intros o [] |].
      rewrite Hl. intros l [<- | []]. lia. }
    rewrite Ho, Hl. simpl. repeat split; lia.
  - destruct (observe_fold_live elements h [] Hf)
      as (h' & ids & -> & Hf' & Hobs & Hw & Hc).
    simpl. split; [exact Hf' |].
    rewrite Hobs, Ho, Hw, Hl, Hc. simpl. repeat split; lia.
Qed.

Lemma renders_snoc (rs : list (RO.Env * list (option nat)))
      (r : RO.Env * list (option nat)) :
  renders (rs ++ [r]) = rerun (renders rs) r.
Proof. unfold renders. rewrite fold_left_app. reflexivity. Qed.

(** After any number of renders, the cleanup of the last run leaves nothing
    registered. *)
Lemma renders_clean (rs : list (RO.Env * list (option nat))) :
  fresh (fst (renders rs)) /\
  RO.observers (RO.cleanup (snd (renders rs)) (fst (renders rs))) = [] /\
  RO.windowListeners (RO.cleanup (snd (renders rs)) (fst (renders rs))) = [] /\
  RO.callbackCalls (fst (renders rs)) = eager rs.
Proof.
  induction rs as [| [env els] rs IH] using rev_ind.
  - simpl. repeat split; intros x [].
  - destruct IH as (Hf & Ho & Hl & Hc).
    rewrite renders_snoc. unfold rerun. simpl fst. simpl snd.
    set (h0 := RO.cleanup (snd (renders rs)) (fst (renders rs))) in *.
    pose proof (cleanup_fresh (snd (renders rs)) _ Hf) as Hf0. fold h0 in Hf0.
    destruct (effect_live env els h0 Hf0 Ho Hl) as (Hf1 & _ & _ & Hc1).
    destruct (resize_detached env els h0 Hf0) as [Ho1 Hl1].
    split; [exact Hf1 |]. split; [rewrite Ho1; exact Ho |].
    split; [rewrite Hl1; exact Hl |].
    rewrite Hc1. unfold h0.
    destruct (cleanup_counters (snd (renders rs)) (fst (renders rs)))
      as [_ ->].
    rewrite Hc. unfold eager. rewrite filter_app, length_app. simpl.
    destruct env; simpl; lia.
Qed.

(** The resize effect does not pile up observers.  It runs again after
    every render; whatever the earlier renders were, after a render only
    the observers of that render are live, one for each ref that holds an
    element (or one window listener when the host has no [ResizeObserver]),
    [callback] has been called once for each render with a window, and the
    cleanup of the last run leaves nothing behind. *)
Theorem resize_no_leak (rs : list (RO.Env * list (option nat)))
        (env : RO.Env) (elements : list (option nat)) :
  let h := fst (renders (rs ++ [(env, elements)])) in
  let c := snd (renders (rs ++ [(env, elements)])) in
  map snd (RO.observers h)
    = match env with
      | RO.WithResizeObserver => present elements
      | _ => []
      end /\
  List.length (RO.windowListeners h)
    = match env with RO.WindowOnly => 1%nat | _ => 0%nat end /\
  RO.callbackCalls h = eager (rs ++ [(env, elements)]) /\
  RO.observers (RO.cleanup c h) = [] /\
  RO.windowListeners (RO.cleanup c h) = [].
Proof.
  intros h c.
  destruct (renders_clean (rs ++ [(env, elements)])) as (_ & Ho & Hl & Hc).
  fold h in Ho, Hl, Hc. fold c in Ho, Hl.
  destruct (renders_clean rs) as (Hf0 & Ho0 & Hl0 & _).
  pose proof (cleanup_fresh (snd (renders rs)) _ Hf0) as Hfc.
  destruct (effect_live env elements _ Hfc Ho0 Hl0) as (_ & Hobs & Hwin & _).
  assert (Eh : h = fst (RO.effect env elements
                          (RO.cleanup (snd (renders rs)) (fst (renders rs)))))
    by (unfold h; rewrite renders_snoc; reflexivity).
  split; [rewrite Eh; exact Hobs |]. split; [rewrite Eh; exact Hwin |].
  split; [exact Hc |]. split; assumption.
Qed.

(** Three renders of the component: both refs are set from the second on. *)
Example resize_three_renders :
  let h := fst (renders [(RO.WithResizeObserver, [Some 1%nat; None]);
                         (RO.WithResizeObserver, [Some 1%nat; Some 2%nat]);
                         (RO.WithResizeObserver, [Some 1%nat; Some 2%nat])]) in
  RO.observers h = [(3%nat, 1%nat); (4%nat, 2%nat)] /\
  RO.callbackCalls h = 3%nat.
Proof. split; reflexivity. Qed.

End ResizeLifecycle.

(** ** The image loader: cleanup, and what the counter counts *)

Section LoaderCounter.

Import Waiting Bounds.

(** After the cleanup of a run of the effect no image event reaches it:
    whatever the images did before and do afterwards, the state is that of
    the cleanup, and [onLoad] is not called again. *)
Theorem loader_silent_after_cleanup (container : option (list bool))
        (before after : list IL.ImgEvent) :
  let s := IL.events before (IL.effect container) in
  IL.events after (IL.cleanup s) = IL.cleanup s /\
  IL.onLoadCalls (IL.events after (IL.cleanup s)) = IL.onLoadCalls s /\
  (IL.onLoadCalls (IL.events after (IL.cleanup s)) <= 1)%nat.
Proof.
  intros s. rewrite cleanup_silences. split; [reflexivity |].
  split; [reflexivity |]. simpl. apply onLoad_at_most_once.
Qed.

Lemma listening_snoc (ls : list IL.Listeners) (x : IL.Listeners) :
  listening (ls ++ [x])
    = (listening ls + Nat.b2n (IL.onLoadEvent x)
       + Nat.b2n (IL.onErrorEvent x))%nat.
Proof.
  unfold listening. induction ls as [| y ls IH]; simpl; [lia |].
  rewrite IH. lia.
Qed.

Lemma listening_registered (images : list bool) :
  listening (map registered images) = (2 * incomplete images)%nat.
Proof.
  unfold listening, incomplete.
  induction images as [| c images IH]; [reflexivity |].
  simpl. rewrite IH. destruct c; simpl; lia.
Qed.

Lemma waiting_registered (images : list bool) :
  waiting (map registered images) = incomplete images.
Proof.
  unfold waiting, incomplete.
  induction images as [| c images IH]; [reflexivity |].
  destruct c; simpl; rewrite ?IH; reflexivity.
Qed.

(** Taking one registered listener off leaves one listener less. *)
Lemma update_listening (P : IL.Listeners -> bool) (i : nat)
      (f : IL.Listeners -> IL.Listeners) (l : list IL.Listeners) :
  P IL.noListeners = false ->
  (forall x, P x = true ->
             (Nat.b2n (IL.onLoadEvent (f x)) + Nat.b2n (IL.onErrorEvent (f x))
              + 1
              = Nat.b2n (IL.onLoadEvent x) + Nat.b2n (IL.onErrorEvent x))%nat) ->
  P (nth i l IL.noListeners) = true ->
  (listening (IL.update i f l) + 1 = listening l)%nat.
Proof.
  intros Hd Hf. unfold listening.
  revert i. induction l as [| x l IH]; intros [| i] Hn; simpl in *;
    try congruence.
  - specialize (Hf x Hn). lia.
  - specialize (IH i Hn). lia.
Qed.

(** An event either finds no listener and changes nothing, or takes one
    listener off and the counter down by one. *)
Lemma dispatch_balance (e : IL.ImgEvent) (s : IL.Loader) (k : Z) :
  (IL.remainingImages s = Z.of_nat (listening (IL.listeners s)) - k)%Z ->
  (IL.remainingImages (IL.dispatch e s)
   = Z.of_nat (listening (IL.listeners (IL.dispatch e s))) - k)%Z.
Proof.
  intros H. destruct e as [i | i]; simpl.
  - destruct (IL.onLoadEvent (nth i (IL.listeners s) IL.noListeners)) eqn:E;
      [| exact H].
    match goal with |- context [IL.handleImageLoad ?x] =>
      destruct (handleImageLoad_fields x) as [-> ->] end.
    simpl.
    pose proof (update_listening IL.onLoadEvent i
                  (fun l => IL.mkListeners false (IL.onErrorEvent l))
                  (IL.listeners s) eq_refl) as Hu.
    specialize (Hu ltac:(intros x Hx; simpl; rewrite Hx; simpl; lia) E).
    lia.
  - destruct (IL.onErrorEvent (nth i (IL.listeners s) IL.noListeners)) eqn:E;
      [| exact H].
    match goal with |- context [IL.handleImageLoad ?x] =>
      destruct (handleImageLoad_fields x) as [-> ->] end.
    simpl.
    pose proof (update_listening IL.onErrorEvent i
                  (fun l => IL.mkListeners (IL.onLoadEvent l) false)
                  (IL.listeners s) eq_refl) as Hu.
    specialize (Hu ltac:(intros x Hx; simpl; rewrite Hx; simpl; lia) E).
    lia.
Qed.

Lemma events_balance (es : list IL.ImgEvent) :
  forall (s : IL.Loader) (k : Z),
    (IL.remainingImages s = Z.of_nat (listening (IL.listeners s)) - k)%Z ->
    (IL.remainingImages (IL.events es s)
     = Z.of_nat (listening (IL.listeners (IL.events es s))) - k)%Z.
Proof.
  unfold IL.events. induction es as [| e es IH]; intros s k H; simpl.
  - exact H.
  - apply IH, dispatch_balance, H.
Qed.

(** The counter counts listeners that fired, not images that settled.  For
    a sequence with images, after any events whatever, the counter is the
    number of listeners still registered less the number of images that were
    incomplete when the effect ran; [onLoad] has been called exactly when no
    more listeners are left than there were incomplete images.  An image that
    fires both its [load] and its [error] listener is therefore counted
    twice. *)
Theorem loader_counts_listeners (images : list bool) (es : list IL.ImgEvent) :
  images <> [] ->
  let s := IL.events es (IL.effect (Some images)) in
  IL.remainingImages s
    = (Z.of_nat (listening (IL.listeners s))
       - Z.of_nat (incomplete images))%Z /\
  IL.onLoadCalls s
    = if Nat.leb (listening (IL.listeners s)) (incomplete images)
      then 1%nat else 0%nat.
Proof.
  intros Hne s.
  assert (Hbal : (IL.remainingImages s
                  = Z.of_nat (listening (IL.listeners s))
                    - Z.of_nat (incomplete images))%Z).
  { unfold s. apply events_balance. unfold IL.effect.
    destruct (Nat.eqb_spec (List.length images) 0) as [E | _].
    - destruct images; [congruence | discriminate].
    - match goal with |- context [fold_left IL.visit images ?x] =>
        destruct (fold_visit_fields images x) as [Hl Hr] end.
      simpl in Hl, Hr. rewrite Hl, listening_registered.
      rewrite waiting_registered in Hr. lia. }
  split; [exact Hbal |].
  pose proof (events_counted es _ (effect_counted (Some images))) as Hc.
  fold s in Hc. unfold counted in Hc. rewrite Hc, Hbal.
  destruct (Z.leb_spec (Z.of_nat (listening (IL.listeners s))
                        - Z.of_nat (incomplete images)) 0);
    destruct (Nat.leb_spec (listening (IL.listeners s)) (incomplete images));
    (reflexivity || lia).
Qed.

Lemma loader_counts_listeners_witness :
  let s := IL.events [IL.ImgLoad 0; IL.ImgError 0]
                     (IL.effect (Some [false; false])) in
  IL.remainingImages s = 0%Z /\
  IL.onLoadCalls s = 1%nat /\
  IL.allSettled [false; false] [IL.ImgLoad 0; IL.ImgError 0] = false.
Proof.
  intros s.
  destruct (loader_counts_listeners [false; false]
              [IL.ImgLoad 0; IL.ImgError 0] ltac:(discriminate)) as [Hr Hc].
  fold s in Hr, Hc. rewrite Hr, Hc. repeat split.
Defined.

End LoaderCounter.

(** ** The rendered entries and copies *)

Section Rendered.

Import ItemRenderer Copies.
Local Open Scope string_scope.

Lemma orElse_named (a : option string) (d : string) :
  d <> "" -> orElse a d <> "".
Proof.
  intros Hd. unfold orElse. destruct a as [s |]; [| exact Hd].
  destruct (String.eqb_spec s ""); assumption.
Qed.

(** Every link the renderer produces has a name and a target: the link
    exists exactly for a non-empty [href], which it points to, and its
    accessible name is never empty.  Inline content is hidden from assistive
    technology only inside such a link, and only when the item has no
    [ariaLabel] to announce. *)
Theorem links_are_named (item : LogoItem) (index : nat) :
  let li := renderLogoItemInternal None item index in
  (forall h name t r c,
      child li = Anchor h name t r c ->
      href item = Some h /\ h <> "" /\ name <> "") /\
  ((exists h name t r c, child li = Anchor h name t r c)
   <-> truthy (href item) = true) /\
  (forall hidden c, child li = Plain (Span hidden c) -> hidden = false) /\
  (forall h name t r c,
      child li = Anchor h name t r (Span true c) ->
      truthy (ariaLabel item) = false).
Proof.
  unfold renderLogoItemInternal, truthy. simpl.
  destruct (href item) as [h |] eqn:Eh.
  - destruct (String.eqb_spec h "") as [E | NE]; simpl.
    + repeat split; try discriminate.
      * intros (h' & name & t & r & c & Hc). discriminate.
      * intros hidden c [= Hc]. destruct (isNodeItem item); [| discriminate].
        injection Hc as <- _. reflexivity.
    + repeat split.
      * injection H as <- _ _ _ _. reflexivity.
      * injection H as <- _ _ _ _. exact NE.
      * injection H as _ <- _ _ _. apply orElse_named. discriminate.
      * intros _. eexists _, _, _, _, _. reflexivity.
      * discriminate.
      * intros h' name t r c [= _ _ _ _ Hc].
        destruct (isNodeItem item); [| discriminate].
        injection Hc as Hc _. unfold truthy in Hc.
        destruct (ariaLabel item) as [a |]; [| reflexivity].
        destruct (String.eqb a ""); [reflexivity | discriminate].
  - simpl. repeat split; try discriminate.
    + intros (h' & name & t & r & c & Hc). discriminate.
    + intros hidden c [= Hc]. destruct (isNodeItem item); [| discriminate].
      injection Hc as <- _. reflexivity.
Qed.

Lemma links_are_named_witness :
  exists name c,
    child (renderLogoItemInternal None
             (mkLogoItem (Some "<Icon />") None None None None None None None
                         (Some "https://acme.example") None) 0)
      = Anchor "https://acme.example" name "_blank" "noreferrer noopener"
               (Span true c) /\
    name <> "".
Proof.
  eexists _, _. split; [reflexivity |].
  destruct (links_are_named
              (mkLogoItem (Some "<Icon />") None None None None None None None
                          (Some "https://acme.example") None) 0)
    as (Hnamed & _).
  destruct (Hnamed _ _ _ _ _ eq_refl) as (_ & _ & Hn).
  exact Hn.
Defined.

Lemma entry_wrapper (renderItem : option (LogoItem -> nat -> ReactNode))
      (item : LogoItem) (index : nat) :
  key (renderLogoItemInternal renderItem item index) = index /\
  role (renderLogoItemInternal renderItem item index) = "listitem".
Proof. unfold renderLogoItemInternal. destruct renderItem; auto. Qed.

Lemma entries_keys (renderItem : option (LogoItem -> nat -> ReactNode))
      (logos : list LogoItem) :
  forall a,
    map key
        (map (fun p => renderLogoItemInternal renderItem (snd p) (fst p))
             (combine (seq a (List.length logos)) logos))
      = seq a (List.length logos).
Proof.
  induction logos as [| item logos IH]; intros a; [reflexivity |].
  simpl. rewrite IH.
  destruct (entry_wrapper renderItem item a) as [-> _]. reflexivity.
Qed.

Lemma nth_error_copies (f : nat -> Copy) (n : nat) :
  forall a i c,
    nth_error (map f (seq a n)) i = Some c -> c = f (a + i)%nat.
Proof.
  induction n as [| n IH]; intros a i c H.
  - destruct i; discriminate.
  - destruct i as [| i]; simpl in H.
    + injection H as <-. f_equal. lia.
    + apply IH in H. rewrite H. f_equal. lia.
Qed.

Lemma later_copies_unmeasured (f : nat -> Copy) (n : nat) :
  (forall i, measured (f i) = Nat.eqb i 0) ->
  forall a, (0 < a)%nat -> filter measured (map f (seq a n)) = [].
Proof.
  intros Hf. induction n as [| n IH]; intros a Ha; [reflexivity |].
  simpl. rewrite Hf. destruct (Nat.eqb_spec a 0); [lia |].
  apply IH. lia.
Qed.

(** What is rendered: as many copies as [copyCount] says; the copy at
    position [i] has key [i], carries [seqRef] exactly when it is the first,
    and is hidden from assistive technology exactly when it is not; every
    copy has the same entries, one for each logo, keyed by the logo's index
    with role [listitem], with or without a custom [renderItem].  In every
    state of a mounted component there are at least two copies and exactly
    one of them is the one that is measured. *)
Theorem copies_rendered
        (renderItem : option (LogoItem -> nat -> ReactNode))
        (logos : list LogoItem) :
  (forall copyCount,
      List.length (logoLists copyCount renderItem logos) = Z.to_nat copyCount /\
      forall i c,
        nth_error (logoLists copyCount renderItem logos) i = Some c ->
        copyKey c = i /\ measured c = Nat.eqb i 0 /\
        ariaHidden c = negb (Nat.eqb i 0) /\
        entries c = renderEntries renderItem logos) /\
  (List.length (renderEntries renderItem logos) = List.length logos /\
   map key (renderEntries renderItem logos) = seq 0 (List.length logos) /\
   forall e, In e (renderEntries renderItem logos) -> role e = "listitem") /\
  (forall m,
      LogoLoop.reachable m ->
      let copies :=
        logoLists (LogoLoop.copyCount (LogoLoop.state m)) renderItem logos in
      (2 <= List.length copies)%nat /\
      List.length (filter measured copies) = 1%nat).
Proof.
  split; [| split].
  - intros copyCount. unfold logoLists. split.
    + rewrite length_map, length_seq. reflexivity.
    + intros i c H. apply nth_error_copies in H. subst c. simpl.
      repeat split. destruct i; reflexivity.
  - unfold renderEntries. split; [| split].
    + rewrite length_map, length_combine, length_seq. apply Nat.min_id.
    + apply entries_keys.
    + intros e He. apply in_map_iff in He. destruct He as ([i item] & <- & _).
      apply entry_wrapper.
  - intros m Hr copies.
    pose proof (Invariant.copies m (reachable_holds m Hr)) as Hc.
    unfold copies, logoLists.
    destruct (Z.to_nat (LogoLoop.copyCount (LogoLoop.state m))) as [| n] eqn:En;
      [lia |].
    split; [rewrite length_map, length_seq; lia |].
    simpl.
    rewrite later_copies_unmeasured; [reflexivity | reflexivity | lia].
Qed.

Lemma copies_rendered_witness :
  exists m0 m1,
    LogoLoop.mount false (LogoLoop.mkProps 120 LogoLoop.left None) = Some m0 /\
    LogoLoop.step false (LogoLoop.Measure (Some 250%N) (Some 200%R)) m0
      = Some m1 /\
    (2 <= List.length
            (logoLists (LogoLoop.copyCount (LogoLoop.state m1)) None []))%nat /\
    (exists c,
        nth_error (logoLists 4 None []) 2 = Some c /\
        ariaHidden c = true /\ measured c = false).
Proof.
  destruct (mount_holds false (LogoLoop.mkProps 120 LogoLoop.left None))
    as (m0 & Hm0 & H0 & _).
  destruct (step_holds false (LogoLoop.Measure (Some 250%N) (Some 200%R)) m0 H0)
    as (m1 & Hm1 & _).
  pose proof (LogoLoop.reach_step _ _ _ _ (LogoLoop.reach_mount _ _ _ Hm0) Hm1)
    as R1.
  destruct (copies_rendered None []) as (Hcopies & _ & Hreach).
  destruct (Hreach m1 R1) as [Hlen _].
  exists m0, m1. split; [exact Hm0 |]. split; [exact Hm1 |].
  split; [exact Hlen |].
  eexists. split; [reflexivity |].
  destruct (Hcopies 4%Z) as [_ Hnth].
  destruct (Hnth 2%nat _ eq_refl) as (_ & Hmeas & Hhid & _).
  split; assumption.
Defined.

End Rendered.

(** ** The pointer handlers *)

Section Pointer.

Import Invariant.

(** A render with the props and state the component already has changes
    nothing. *)
Lemma rerender_same (pref : bool) (m : LL.Mounted) :
  holds m -> LL.rerender pref (LL.props m) (LL.state m) m = Some m.
Proof.
  intros H. unfold LL.rerender.
  destruct (LL.deps_eq_dec (LL.deps m)
              (LL.loopDeps (LL.props m) (LL.state m))) as [_ | NE].
  - destruct m; reflexivity.
  - exfalso. apply NE. exact (deps_current m H).
Qed.

(** With a hover speed configured, the pointer entering sets the frame
    target to the hover speed and the pointer leaving sets it back to the
    base target velocity.  The root and the track both carry the handlers, so
    one pointer move can call a handler twice: the second call changes
    nothing, neither state nor effect. *)
Theorem pointer_sets_target (pref pref' : bool) (h : R) (m m1 : LL.Mounted) :
  LL.reachable m ->
  LL.hoverSpeed (LL.props m) = Some h ->
  LL.step pref LL.MouseEnter m = Some m1 ->
  LL.isHovered (LL.state m1) = true /\
  AL.target (LL.deps m1) = h /\
  LL.step pref' LL.MouseEnter m1 = Some m1 /\
  exists m2,
    LL.step pref' LL.MouseLeave m1 = Some m2 /\
    LL.isHovered (LL.state m2) = false /\
    AL.target (LL.deps m2) = LL.targetVelocity (LL.props m2) /\
    LL.step pref LL.MouseLeave m2 = Some m2.
Proof.
  intros Hr Hh Hs.
  pose proof (reachable_holds m Hr) as H.
  pose proof (step_deterministic_holds _ _ _ _ H Hs) as H1.
  destruct (step_props_state _ _ _ _ Hs) as [Ep1 Es1].
  unfold LL.handleMouseEnter in Es1. rewrite Hh in Es1.
  assert (Hh1 : LL.hoverSpeed (LL.props m1) = Some h) by (rewrite Ep1; exact Hh).
  split; [rewrite Es1; reflexivity |]. split.
  { rewrite (deps_current m1 H1).
    rewrite (frame_target_configured _ _ h Hh1), Es1. reflexivity. }
  split.
  { unfold LL.step, LL.handleMouseEnter. rewrite Hh1.
    replace (LL.mkState (LL.seqWidth (LL.state m1))
                        (LL.copyCount (LL.state m1)) true)
      with (LL.state m1) by (rewrite Es1; reflexivity).
    apply rerender_same, H1. }
  destruct (step_holds pref' LL.MouseLeave m1 H1) as (m2 & Hs2 & H2).
  exists m2. split; [exact Hs2 |].
  destruct (step_props_state _ _ _ _ Hs2) as [Ep2 Es2].
  unfold LL.handleMouseLeave in Es2. rewrite Hh1 in Es2.
  assert (Hh2 : LL.hoverSpeed (LL.props m2) = Some h)
    by (rewrite Ep2; exact Hh1).
  split; [rewrite Es2; reflexivity |]. split.
  { rewrite (deps_current m2 H2).
    rewrite (frame_target_configured _ _ h Hh2), Es2. reflexivity. }
  unfold LL.step, LL.handleMouseLeave. rewrite Hh2.
  replace (LL.mkState (LL.seqWidth (LL.state m2))
                      (LL.copyCount (LL.state m2)) false)
    with (LL.state m2) by (rewrite Es2; reflexivity).
  apply rerender_same, H2.
Qed.

Lemma pointer_sets_target_witness :
  exists m m1,
    LL.mount false (LL.mkProps 120 LL.left (Some 0)) = Some m /\
    LL.step false LL.MouseEnter m = Some m1 /\
    AL.target (LL.deps m1) = 0 /\
    LL.step false LL.MouseEnter m1 = Some m1.
Proof.
  destruct (mount_holds false (LL.mkProps 120 LL.left (Some 0)))
    as (m & Hm & H & Ep & _).
  destruct (step_holds false LL.MouseEnter m H) as (m1 & Hs & _).
  destruct (pointer_sets_target false false 0 m m1
              (LL.reach_mount _ _ _ Hm)) as (_ & Ht & Hagain & _).
  - rewrite Ep. reflexivity.
  - exact Hs.
  - exists m, m1. auto.
Defined.

End Pointer.
